(** * Sparkify ETL: a model of [etl.py] and its table-level properties

    The program reads two JSON data sets (song catalog, activity log) into
    Spark data frames, derives five tables from them and writes each table
    as parquet.  The data frames are modelled as lists of rows over a small
    value domain, the [DataFrame] methods the program calls ([select],
    [dropDuplicates], [distinct], [orderBy], [withColumn], [join], [where],
    [write.parquet]) as functions on that model, and the three methods of
    [SparkETL] as compositions of them, statement by statement. *)

From Stdlib Require Import ZArith String List Permutation SpecFloat Lia.
From stdpp Require Import base tactics decidable option list sorting strings gmap.

Local Open Scope Z_scope.

(** ** Values, errors *)

(** Column values.  [VLong] holds a 64-bit integer.  [VDouble] carries
    the IEEE-754 datum as Rocq's [spec_float], which has both zeros and a
    single NaN; the program only stores and compares doubles. *)
Inductive value : Type :=
| VNull
| VBool (b : bool)
| VInt (n : Z)
| VLong (n : Z)
| VDouble (d : spec_float)
| VString (s : string)
| VTimestamp (us : Z).

Global Instance spec_float_eq_dec : EqDecision spec_float.
Proof. solve_decision. Defined.

Global Instance value_eq_dec : EqDecision value.
Proof. solve_decision. Defined.

(** Exceptions of the Python worker. *)
Inductive PyError : Type := TypeError | ValueError.

(** What can make a Spark job fail: the analyzer rejects the plan, or a
    Python UDF raises while a task evaluates it. *)
Inductive error : Type :=
| AnalysisException (msg : string)
| PythonException (e : PyError).

Inductive result (A : Type) : Type :=
| OK (a : A)
| Err (e : error).
Arguments OK {A} a.
Arguments Err {A} e.

Global Instance PyError_eq_dec : EqDecision PyError.
Proof. solve_decision. Defined.

Global Instance error_eq_dec : EqDecision error.
Proof. solve_decision. Defined.

Global Instance result_eq_dec `{EqDecision A} : EqDecision (result A).
Proof. solve_decision. Defined.

Global Instance result_ret : MRet result := λ A a, OK a.
Global Instance result_bind : MBind result := λ A B f m,
  match m with OK a => f a | Err e => Err e end.
Global Instance result_fmap : FMap result := λ A B f m,
  match m with OK a => OK (f a) | Err e => Err e end.

(** Method chaining: [m |> f] runs [f] on the frame [m] yields. *)
Notation "m |> f" := (mbind (M:=result) f m)
  (at level 61, left associativity, only parsing).

Definition is_OK {A} (m : result A) : Prop := ∃ a, m = OK a.
Definition is_Err {A} (m : result A) : Prop := ∃ e, m = Err e.

(** Monadic traversal of a list, left to right, stopping at the first
    error. *)
Fixpoint traverse {A B} (f : A → result B) (l : list A) : result (list B) :=
  match l with
  | [] => OK []
  | x :: l => y ← f x; ys ← traverse f l; OK (y :: ys)
  end.

(** ** Calendar *)

(** Timestamps are microseconds since the epoch, as Spark stores them.  The
    calendar fields of an instant are those of its local time, [tz] seconds
    east of UTC at that instant; the calendar is the proleptic Gregorian
    one. *)
Module Calendar.

Definition seconds_per_day : Z := 86400.

(** Year, month, day of the day number [z] (days since 1970-01-01). *)
Definition civil_from_days (z : Z) : Z * Z * Z :=
  let z := z + 719468 in
  let era := z / 146097 in
  let doe := z - era * 146097 in
  let yoe := (doe - doe / 1460 + doe / 36524 - doe / 146096) / 365 in
  let y := yoe + era * 400 in
  let doy := doe - (365 * yoe + yoe / 4 - yoe / 100) in
  let mp := (5 * doy + 2) / 153 in
  let d := doy - (153 * mp + 2) / 5 + 1 in
  let m := if mp <? 10 then mp + 3 else mp - 9 in
  (if m <=? 2 then y + 1 else y, m, d).

Definition days_from_civil (y m d : Z) : Z :=
  let y := if m <=? 2 then y - 1 else y in
  let era := y / 400 in
  let yoe := y - era * 400 in
  let doy := (153 * (if 2 <? m then m - 3 else m + 9) + 2) / 5 + d - 1 in
  let doe := yoe * 365 + yoe / 4 - yoe / 100 + doy in
  era * 146097 + doe - 719468.

Definition local_seconds (tz us : Z) : Z := us / 1000000 + tz.
Definition local_day (tz us : Z) : Z := local_seconds tz us / seconds_per_day.

Definition year (tz us : Z) : Z := (civil_from_days (local_day tz us)).1.1.
Definition month (tz us : Z) : Z := (civil_from_days (local_day tz us)).1.2.
Definition dayofmonth (tz us : Z) : Z := (civil_from_days (local_day tz us)).2.
Definition hour (tz us : Z) : Z :=
  (local_seconds tz us mod seconds_per_day) / 3600.

(** ISO-8601 week number: the week of a day is that of its Thursday. *)
Definition weekofyear (tz us : Z) : Z :=
  let day := local_day tz us in
  let weekday := (day + 3) mod 7 in   (* Monday = 0 *)
  let thursday := day - weekday + 3 in
  let y := (civil_from_days thursday).1.1 in
  (thursday - days_from_civil y 1 1) / 7 + 1.

Definition leap (y : Z) : bool :=
  (y mod 4 =? 0) && (negb (y mod 100 =? 0) || (y mod 400 =? 0)).

(** The years [datetime] can hold are 1 to 9999. *)
Definition datetime_min : Z := days_from_civil 1 1 1 * seconds_per_day.
Definition datetime_max : Z := days_from_civil 10000 1 1 * seconds_per_day - 1.

End Calendar.

(** ** Input records *)

(** A record of the song data set, as [schema_song_data] types it.  Every
    field is nullable; a field missing from the JSON object reads as null. *)
Module SongData.
Record t : Type := mk {
  artist_id : option string;
  artist_latitude : option spec_float;
  artist_location : option string;
  artist_longitude : option spec_float;
  artist_name : option string;
  duration : option spec_float;
  num_songs : option Z;
  song_id : option string;
  title : option string;
  year : option Z }.
End SongData.

(** A record of the log data set, as [schema_log_data] types it. *)
Module LogData.
Record t : Type := mk {
  artist : option string;
  auth : option string;
  firstName : option string;
  gender : option string;
  itemInSession : option Z;
  lastName : option string;
  length : option spec_float;
  level : option string;
  location : option string;
  method : option string;
  page : option string;
  registration : option spec_float;
  sessionId : option Z;
  song : option string;
  status : option Z;
  ts : option Z;
  userAgent : option string;
  userId : option string }.
End LogData.

Definition string_value (o : option string) : value :=
  match o with Some s => VString s | None => VNull end.
Definition long_value (o : option Z) : value :=
  match o with Some n => VLong n | None => VNull end.
Definition double_value (o : option spec_float) : value :=
  match o with Some d => VDouble d | None => VNull end.

(** ** Data frames *)

(** A cell is a delayed computation: Spark evaluates a column expression
    only where a later step or the final write consumes it, so a UDF that
    would raise fails the job only if its column is used. *)
Abbreviation cell := (result value).
Abbreviation row := (list cell).

(** [columns] is the schema of the frame.  [hidden] names the attributes of
    the frame's input that a projection has dropped from the schema: the
    analyzer still resolves references to them in a later [where] or
    [orderBy] (it widens the projection and narrows it again afterwards).
    A row holds the cells of [columns], then those of [hidden]. *)
Record DataFrame : Type := {
  columns : list string;
  hidden : list string;
  rows : list row }.

(** Column expressions, as far as the program builds them. *)
Inductive Column : Type :=
| col (name : string)
| lit (v : value)
| alias (c : Column) (name : string)
| eq_col (a b : Column)                          (* [a == b] *)
| call (f : value → result value) (c : Column)   (* a function of one column *)
| desc (c : Column).

Fixpoint index_of (name : string) (l : list string) : option nat :=
  match l with
  | [] => None
  | x :: l => if String.eqb name x then Some 0%nat else S <$> index_of name l
  end.

Definition cannot_resolve (name : string) : error :=
  AnalysisException ("cannot resolve " +:+ name).
Definition ambiguous (name : string) : error :=
  AnalysisException ("ambiguous reference " +:+ name).

(** Position of the attribute [name] in the rows of a frame with schema
    [cols] and dropped attributes [hid]. *)
Definition resolve (cols hid : list string) (name : string) : result nat :=
  match index_of name cols with
  | Some i =>
      match index_of name (drop (S i) cols) with
      | None => OK i
      | Some _ => Err (ambiguous name)
      end
  | None =>
      match index_of name hid with
      | Some j => OK (List.length cols + j)%nat
      | None => Err (cannot_resolve name)
      end
  end.

Definition get (i : nat) (r : row) : cell := default (OK VNull) (r !! i).

(** SQL equality: null when either side is null. *)
Definition sql_eq (x y : value) : value :=
  match x, y with
  | VNull, _ | _, VNull => VNull
  | _, _ => VBool (bool_decide (x = y))
  end.

(** Analysis of an expression against a schema, giving its evaluator. *)
Fixpoint compile (cols hid : list string) (c : Column) : result (row → cell) :=
  match c with
  | col name => i ← resolve cols hid name; OK (get i)
  | lit v => OK (λ _, OK v)
  | alias c _ => compile cols hid c
  | eq_col a b =>
      fa ← compile cols hid a;
      fb ← compile cols hid b;
      OK (λ r, x ← fa r; y ← fb r; OK (sql_eq x y))
  | call f c => fc ← compile cols hid c; OK (λ r, x ← fc r; f x)
  | desc _ => Err (AnalysisException "sort order outside orderBy")
  end.

Fixpoint name_of (c : Column) : string :=
  match c with
  | col name => name
  | alias _ name => name
  | desc c => name_of c
  | _ => "expr"
  end.

(** The cells of the schema columns, evaluated. *)
Definition force (n : nat) (r : row) : result (list value) :=
  traverse id (take n r).

(** [df.collect()]: the rows a write or any other action sees. *)
Definition collect (df : DataFrame) : result (list (list value)) :=
  traverse (force (List.length (columns df))) (rows df).

(** [df.select(cs...)] *)
Definition select (cs : list Column) (df : DataFrame) : result DataFrame :=
  fs ← traverse (compile (columns df) (hidden df)) cs;
  OK {| columns := name_of <$> cs;
        hidden := columns df ++ hidden df;
        rows := (λ r, ((λ f : row → cell, f r) <$> fs) ++ r) <$> rows df |}.

(** [df.withColumn(name, c)]: replaces the column [name] if the schema has
    one, else appends it. *)
Definition withColumn (name : string) (c : Column) (df : DataFrame)
  : result DataFrame :=
  f ← compile (columns df) (hidden df) c;
  let n := List.length (columns df) in
  OK match index_of name (columns df) with
     | Some i =>
         {| columns := columns df; hidden := hidden df;
            rows := (λ r, <[i := f r]> r) <$> rows df |}
     | None =>
         {| columns := columns df ++ [name]; hidden := hidden df;
            rows := (λ r, take n r ++ f r :: drop n r) <$> rows df |}
     end.

(** Rows on which the condition evaluates to true (not false, not null). *)
Fixpoint where_rows (f : row → cell) (rs : list row) : result (list row) :=
  match rs with
  | [] => OK []
  | r :: rs =>
      v ← f r;
      rs' ← where_rows f rs;
      OK (if bool_decide (v = VBool true) then r :: rs' else rs')
  end.

(** [df.where(c)] *)
Definition where_ (c : Column) (df : DataFrame) : result DataFrame :=
  f ← compile (columns df) (hidden df) c;
  rs ← where_rows f (rows df);
  OK {| columns := columns df; hidden := hidden df; rows := rs |}.

Definition join_row (nl nr : nat) (l r : row) : row :=
  take nl l ++ take nr r ++ drop nl l ++ drop nr r.

(** [left.join(right, on)], an inner join.  The program writes the
    condition with attributes of the two frames ([left.a == right.b]); the
    two schemas share no name, so each is the column of that name in the
    joined schema.  The rows come in the order of a hash join that streams
    the right frame and has built its table on the left one: right row by
    right row, the matching left rows last inserted first. *)
Definition join (left right : DataFrame) (on : Column) : result DataFrame :=
  let cols := columns left ++ columns right in
  let hid := hidden left ++ hidden right in
  f ← compile cols hid on;
  let nl := List.length (columns left) in
  let nr := List.length (columns right) in
  rs ← where_rows f
         (r ← rows right; l ← reverse (rows left); [join_row nl nr l r]);
  OK {| columns := cols; hidden := hid; rows := rs |}.

(** A row of evaluated cells. *)
Definition ready (v : list value) : row := OK <$> v.

(** First row of every key, in the order the rows arrive. *)
Fixpoint first_per_key {A K} `{EqDecision K} (key : A → K)
    (seen : list K) (l : list A) : list A :=
  match l with
  | [] => []
  | x :: l =>
      if decide (key x ∈ seen) then first_per_key key seen l
      else x :: first_per_key key (key x :: seen) l
  end.

(** Grouping keys are normalised before they are compared (Spark 3): the
    negative zero of a double becomes the positive one, and the key column
    of the result holds the normalised value. *)
Definition normalize (v : value) : value :=
  match v with
  | VDouble (S754_zero _) => VDouble (S754_zero false)
  | _ => v
  end.

(** The row [v] with the cells at the positions [idx] normalised. *)
Definition normalize_at (idx : list nat) (v : list value) : list value :=
  imap (λ i x, if bool_decide (i ∈ idx) then normalize x else x) v.

(** [df.dropDuplicates(subset)]: one row per value of the [subset]
    columns.  Spark keeps an arbitrary row of each group; the model keeps
    the one that arrives first, so the choice follows the order of the
    input rows. *)
Definition dropDuplicates (subset : list string) (df : DataFrame)
  : result DataFrame :=
  idx ← traverse (resolve (columns df) []) subset;
  vs ← collect df;
  let key (v : list value) :=
    (λ i, default VNull (v !! i)) <$> (idx : list nat) in
  OK {| columns := columns df; hidden := [];
        rows := ready <$> first_per_key key [] (normalize_at idx <$> vs) |}.

(** [df.distinct()]: duplicates over all columns, every column being a
    grouping key. *)
Definition distinct (df : DataFrame) : result DataFrame :=
  vs ← collect df;
  OK {| columns := columns df; hidden := [];
        rows := ready <$> first_per_key id []
                  ((λ v : list value, normalize <$> v) <$> vs) |}.

(** *** Ordering *)

(** Sort keys.  Ascending order puts nulls first, descending order last;
    strings compare byte by byte, a prefix before its extensions. *)
Inductive sortable : Type :=
| SNull
| SNum (n : Z)
| SStr (s : string).

Definition double_key (d : spec_float) : Z :=
  match d with
  | S754_zero _ => 0
  | S754_infinity s => if s then - 2 ^ 2100 else 2 ^ 2100
  | S754_nan => 2 ^ 2101
  | S754_finite s m e =>
      let a := Z.shiftl (Z.pos m) (e + 1074) in if s then - a else a
  end.

Definition sort_key (v : value) : sortable :=
  match v with
  | VNull => SNull
  | VBool b => SNum (if b then 1 else 0)
  | VInt n | VLong n | VTimestamp n => SNum n
  | VDouble d => SNum (double_key d)
  | VString s => SStr s
  end.

Definition sortable_le (a b : sortable) : bool :=
  match a, b with
  | SNull, _ => true
  | _, SNull => false
  | SNum x, SNum y => x <=? y
  | SNum _, SStr _ => true
  | SStr _, SNum _ => false
  | SStr x, SStr y => String.leb x y
  end.

(** Lexicographic order on lists of keys; [dirs] gives the direction of
    each position ([true] for descending). *)
Fixpoint keys_le (dirs : list bool) (ks1 ks2 : list sortable) : bool :=
  match dirs, ks1, ks2 with
  | d :: dirs, a :: ks1, b :: ks2 =>
      let le := if d then sortable_le b a else sortable_le a b in
      let ge := if d then sortable_le a b else sortable_le b a in
      if le then (if ge then keys_le dirs ks1 ks2 else true) else false
  | _, _, _ => true
  end.

Definition keyed_le {A} (dirs : list bool) (p q : list sortable * A) : Prop :=
  keys_le dirs p.1 q.1 = true.

Global Instance keyed_le_dec {A} dirs (p q : list sortable * A) :
  Decision (keyed_le dirs p q).
Proof. unfold keyed_le. apply _. Defined.

(** A sort expression: its evaluator and whether it is descending. *)
Definition compile_order (cols hid : list string) (c : Column)
  : result ((row → cell) * bool) :=
  match c with
  | desc c => f ← compile cols hid c; OK (f, true)
  | _ => f ← compile cols hid c; OK (f, false)
  end.

Definition keys_of (fs : list (row → cell)) (r : row)
  : result (list sortable * row) :=
  ks ← traverse (λ f : row → cell, v ← f r; OK (sort_key v)) fs;
  OK (ks, r).

(** [df.orderBy(cs...)] *)
Definition orderBy (cs : list Column) (df : DataFrame) : result DataFrame :=
  fs ← traverse (compile_order (columns df) (hidden df)) cs;
  keyed ← traverse (keys_of (fst <$> fs)) (rows df);
  OK {| columns := columns df; hidden := hidden df;
        rows := snd <$> merge_sort (keyed_le (snd <$> fs)) keyed |}.

(** *** Writing *)

Inductive SaveMode : Type := Overwrite | ErrorIfExists.

(** A table in the sink: its schema, the partition columns of its layout
    and its rows. *)
Record Parquet : Type := {
  pq_columns : list string;
  pq_partitionBy : list string;
  pq_rows : list (list value) }.

(** [df.write.parquet(path, mode, partitionBy)] on the sink [fs]. *)
Definition write_parquet (df : DataFrame) (path : string) (mode : SaveMode)
    (partitionBy : list string) (fs : gmap string Parquet)
  : result (gmap string Parquet) :=
  _ ← traverse (resolve (columns df) []) partitionBy;
  vs ← collect df;
  let table := {| pq_columns := columns df;
                  pq_partitionBy := partitionBy;
                  pq_rows := vs |} in
  match mode, fs !! path with
  | ErrorIfExists, Some _ => Err (AnalysisException "path already exists")
  | _, _ => OK (<[path := table]> fs)
  end.

(** ** The program *)

Inductive DataType : Type :=
| StringType | DoubleType | LongType | IntegerType | TimestampType.

(** The session, as the program uses it: what [spark.read.schema(s).json(p)]
    finds under the path pattern [p], decoded with either schema, or the
    exception it raises there and then, as it does when no file matches
    the pattern.  The order of the records is the order in which the engine
    delivers them. *)
Record SparkSession : Type := {
  read_song_json : string → result (list SongData.t);
  read_log_json : string → result (list LogData.t) }.

Record SparkETL : Type := {
  spark : SparkSession;
  src : string;
  dst : string }.

Definition schema_song_data : list (string * DataType) :=
  [("artist_id", StringType);
   ("artist_latitude", DoubleType);
   ("artist_location", StringType);
   ("artist_longitude", DoubleType);
   ("artist_name", StringType);
   ("duration", DoubleType);
   ("num_songs", LongType);
   ("song_id", StringType);
   ("title", StringType);
   ("year", LongType)].

Definition schema_log_data : list (string * DataType) :=
  [("artist", StringType);
   ("auth", StringType);
   ("firstName", StringType);
   ("gender", StringType);
   ("itemInSession", LongType);
   ("lastName", StringType);
   ("length", DoubleType);
   ("level", StringType);
   ("location", StringType);
   ("method", StringType);
   ("page", StringType);
   ("registration", DoubleType);
   ("sessionId", LongType);
   ("song", StringType);
   ("status", LongType);
   ("ts", LongType);
   ("userAgent", StringType);
   ("userId", StringType)].

Definition song_row (r : SongData.t) : row :=
  ready [string_value (SongData.artist_id r);
         double_value (SongData.artist_latitude r);
         string_value (SongData.artist_location r);
         double_value (SongData.artist_longitude r);
         string_value (SongData.artist_name r);
         double_value (SongData.duration r);
         long_value (SongData.num_songs r);
         string_value (SongData.song_id r);
         string_value (SongData.title r);
         long_value (SongData.year r)].

Definition log_row (r : LogData.t) : row :=
  ready [string_value (LogData.artist r);
         string_value (LogData.auth r);
         string_value (LogData.firstName r);
         string_value (LogData.gender r);
         long_value (LogData.itemInSession r);
         string_value (LogData.lastName r);
         double_value (LogData.length r);
         string_value (LogData.level r);
         string_value (LogData.location r);
         string_value (LogData.method r);
         string_value (LogData.page r);
         double_value (LogData.registration r);
         long_value (LogData.sessionId r);
         string_value (LogData.song r);
         long_value (LogData.status r);
         long_value (LogData.ts r);
         string_value (LogData.userAgent r);
         string_value (LogData.userId r)].

(** The frame of a list of decoded records. *)
Definition song_frame (records : list SongData.t) : DataFrame :=
  {| columns := fst <$> schema_song_data; hidden := [];
     rows := song_row <$> records |}.

Definition log_frame (records : list LogData.t) : DataFrame :=
  {| columns := fst <$> schema_log_data; hidden := [];
     rows := log_row <$> records |}.

Definition load_song_data (self : SparkETL) : result DataFrame :=
  let src_path_song_data := src self +:+ "song_data/*/*/*/*.json" in
  song_frame <$> read_song_json (spark self) src_path_song_data.

Definition load_log_data (self : SparkETL) : result DataFrame :=
  let src_path_log_data := src self +:+ "log_data/*/*/*.json" in
  log_frame <$> read_log_json (spark self) src_path_log_data.

(** The [songs_table] of [process_song_data]. *)
Definition songs_table (df : DataFrame) : result DataFrame :=
  select [col "song_id"; col "title"; col "artist_id";
          col "year"; col "duration"] df
  |> dropDuplicates ["song_id"].

(** The [artists_table] of [process_song_data]. *)
Definition artists_table (df : DataFrame) : result DataFrame :=
  select [col "artist_id";
          alias (col "artist_name") "name";
          alias (col "artist_location") "location";
          alias (col "artist_latitude") "latitude";
          alias (col "artist_longitude") "longitude"] df
  |> distinct.

Definition process_song_data (self : SparkETL) (fs : gmap string Parquet)
  : result (gmap string Parquet) :=
  df ← load_song_data self;
  songs ← songs_table df;
  fs ← write_parquet songs (dst self +:+ "songs_table.parquet") Overwrite
         ["year"; "artist_id"] fs;
  artists ← artists_table df;
  write_parquet artists (dst self +:+ "artists_table.parquet") Overwrite [] fs.

(** The [users_table] of [process_log_data]. *)
Definition users_table (df : DataFrame) : result DataFrame :=
  select [alias (col "userId") "user_id";
          alias (col "firstName") "first_name";
          alias (col "lastName") "last_name";
          col "gender";
          col "level";
          col "ts"] df
  |> orderBy [col "user_id"; desc (col "ts")].

(** A naive [datetime]: a second of the local calendar, counted from
    1970-01-01T00:00:00, the microsecond within it, and the [fold] flag
    that tells the second pass through a repeated local time. *)
Record datetime : Type := {
  dt_second : Z;
  dt_microsecond : Z;
  dt_fold : bool }.

Definition replace_microsecond (us : Z) (d : datetime) : datetime :=
  {| dt_second := dt_second d; dt_microsecond := us; dt_fold := dt_fold d |}.

(** The local time of the environment, for the Python worker and for the
    session alike.  [utcoffset t] is the number of seconds local time is
    east of UTC at the instant [t], in seconds since the epoch; it changes
    where the zone enters or leaves summer time.  [mktime] is the C
    library's way back, from a second of the local calendar to an instant:
    where a local time is repeated or skipped the choice is the
    library's. *)
Record TimeZone : Type := {
  utcoffset : Z → Z;
  mktime : Z → Z }.

(** A zone that keeps one offset, and UTC. *)
Definition fixed (offset : Z) : TimeZone :=
  {| utcoffset := λ _, offset; mktime := λ second, second - offset |}.

Definition utc : TimeZone := fixed 0.

(** The second of the local calendar at the instant [t]. *)
Definition localtime (tz : TimeZone) (t : Z) : Z := t + utcoffset tz t.

(** The calendar field [g] of the timestamp [us] in the zone [tz]. *)
Definition in_zone (g : Z → Z → Z) (tz : TimeZone) (us : Z) : Z :=
  g (utcoffset tz (us / 1000000)) us.

(** The zone reads the local time of the instant [t] back as [t]: [t] is
    not in a repeated local hour that the library resolves the other
    way. *)
Definition round_trips (tz : TimeZone) (t : Z) : Prop :=
  mktime tz (localtime tz t) = t.

Definition max_fold_seconds : Z := 24 * 3600.

Section Environment.

Variable tz : TimeZone.

(** [local(u)] of the datetime module: the local second of the instant
    [t]; [utc_to_seconds] in it raises for a year outside 1..9999. *)
Definition datetime_local (t : Z) : result Z :=
  let second := localtime tz t in
  if bool_decide (Calendar.datetime_min ≤ second ≤ Calendar.datetime_max)
  then OK second
  else Err (PythonException ValueError).

(** [datetime.fromtimestamp(ms / 1000)] for an integer [ms].  The quotient
    is a float; its second is that of the exact quotient for every
    instant a [datetime] can hold, and its microsecond, that of the exact
    quotient up to the rounding of the float, is replaced right away.
    To set [fold] the constructor looks at the local time one day
    earlier, which must be in the years 1..9999 as well. *)
Definition fromtimestamp_millis (ms : Z) : result datetime :=
  let timet := ms / 1000 in
  result_seconds ← datetime_local timet;
  probe_seconds ← datetime_local (timet - max_fold_seconds);
  let transition := result_seconds - probe_seconds - max_fold_seconds in
  fold ← (if transition <? 0
          then probe_seconds ← datetime_local (timet + transition);
               OK (probe_seconds =? result_seconds)
          else OK false);
  OK {| dt_second := result_seconds;
        dt_microsecond := ms mod 1000 * 1000;
        dt_fold := fold |}.

(** The UDF, declared twice in the program with the same body.  A null
    cell arrives as [None], and [None / 1000] raises [TypeError]. *)
Definition parse_timestamp (ts : option Z) : result datetime :=
  match ts with
  | None => Err (PythonException TypeError)
  | Some ms =>
      parsed_ts ← fromtimestamp_millis ms;
      OK (replace_microsecond 0 parsed_ts)
  end.

(** [TimestampType]: the instant [time.mktime] gives the fields of a
    naive [datetime], in microseconds; [fold] is not among them. *)
Definition to_timestamp (d : datetime) : Z :=
  mktime tz (dt_second d) * 1000000 + dt_microsecond d.

(** [@udf(returnType=TimestampType())] on a long column. *)
Definition udf_timestamp (f : option Z → result datetime) (v : value)
  : result value :=
  match v with
  | VNull => d ← f None; OK (VTimestamp (to_timestamp d))
  | VLong n => d ← f (Some n); OK (VTimestamp (to_timestamp d))
  | _ => Err (AnalysisException "udf argument is not a long")
  end.

(** Spark's calendar functions: null for null, an integer for a
    timestamp, read in the session time zone. *)
Definition timestamp_function (g : Z → Z → Z) (v : value) : result value :=
  match v with
  | VNull => OK VNull
  | VTimestamp us => OK (VInt (in_zone g tz us))
  | _ => Err (AnalysisException "argument is not a timestamp")
  end.

Definition weekofyear := call (timestamp_function Calendar.weekofyear).
Definition hour := call (timestamp_function Calendar.hour).
Definition dayofmonth := call (timestamp_function Calendar.dayofmonth).
Definition month := call (timestamp_function Calendar.month).
Definition year := call (timestamp_function Calendar.year).

(** The [time_table] of [process_log_data]. *)
Definition time_table (df : DataFrame) : result DataFrame :=
  withColumn "start_time" (call (udf_timestamp parse_timestamp) (col "ts")) df
  |> select [col "start_time"]
  |> withColumn "week" (weekofyear (col "start_time"))
  |> withColumn "hour" (hour (col "start_time"))
  |> withColumn "day" (dayofmonth (col "start_time"))
  |> withColumn "month" (month (col "start_time"))
  |> withColumn "year" (year (col "start_time")).

Definition process_log_data (self : SparkETL) (fs : gmap string Parquet)
  : result (gmap string Parquet) :=
  df ← load_log_data self;
  users ← users_table df;
  fs ← write_parquet users (dst self +:+ "users_table.parquet") Overwrite
         [] fs;
  time ← time_table df;
  write_parquet time (dst self +:+ "time_table.parquet") Overwrite [] fs.

(** The [songplays_table] of [create_songplays_table]. *)
Definition songplays_table (df_song_data df_log_data : DataFrame)
  : result DataFrame :=
  join df_song_data df_log_data (eq_col (col "artist_name") (col "artist"))
  |> withColumn "start_time" (call (udf_timestamp parse_timestamp) (col "ts"))
  |> select [alias (col "userId") "user_id";
             col "level";
             col "song_id";
             col "artist_id";
             col "sessionId";
             col "location";
             col "userAgent"]
  |> where_ (eq_col (col "page") (lit (VString "NextSong"))).

Definition create_songplays_table (self : SparkETL)
    (fs : gmap string Parquet) : result (gmap string Parquet) :=
  df_log_data ← load_log_data self;
  df_song_data ← load_song_data self;
  songplays ← songplays_table df_song_data df_log_data;
  write_parquet songplays (dst self +:+ "songplays.parquet") Overwrite [] fs.

(** The three steps of [main], on an empty or earlier sink. *)
Definition run (self : SparkETL) (fs : gmap string Parquet)
  : result (gmap string Parquet) :=
  process_song_data self fs
  |> process_log_data self
  |> create_songplays_table self.

End Environment.

(** ** Setup: configuration, credentials, bucket *)

(** What the setup functions can raise. *)
Inductive Exception : Type :=
| KeyError (key : string)           (* a section or option that is not there *)
| ParsingError                      (* [config.read] on a malformed file *)
| InterpolationError                (* a value the parser cannot interpolate *)
| EnvironError                      (* [os.environ]: a value with a null byte *)
| ClientError (operation : string)  (* the S3 service refuses an operation *)
| JobError (e : error).             (* the Spark job fails *)

Inductive outcome (A : Type) : Type :=
| Done (a : A)
| Raised (e : Exception).
Arguments Done {A} a.
Arguments Raised {A} e.

(** A parsed configuration file: the options of the DEFAULT section and
    those of the other sections, option names in lower case as the parser
    stores them. *)
Record ConfigParser : Type := {
  cfg_defaults : gmap string string;
  cfg_sections : gmap string (gmap string string) }.

(** What the program does not decide: the parser's interpolation of a
    value, the S3 service's verdict on a key pair and on the creation of a
    bucket, the session the builder yields. *)
Record Services : Type := {
  before_get : ConfigParser → string → string → string → outcome string;
  valid_credentials : string → string → bool;
  creatable : string → bool;
  getOrCreate : SparkSession }.

(** The part of the world the setup reads and writes: the files that hold
    a configuration (parsed, or unparsable), the process environment, the
    buckets of the account in the order the service lists them. *)
Record World : Type := {
  files : gmap string (outcome ConfigParser);
  environ : gmap string string;
  buckets : list string }.

(** Computations on the world; an exception keeps the world it happened
    in. *)
Definition IO (A : Type) : Type := World → World * outcome A.

Definition io_ret {A} (a : A) : IO A := λ w, (w, Done a).
Definition io_raise {A} (e : Exception) : IO A := λ w, (w, Raised e).
Definition io_lift {A} (o : outcome A) : IO A := λ w, (w, o).
Definition io_bind {A B} (m : IO A) (k : A → IO B) : IO B := λ w,
  match m w with
  | (w', Done a) => k a w'
  | (w', Raised e) => (w', Raised e)
  end.

#[global] Instance io_mret : MRet IO := @io_ret.
#[global] Instance io_mbind : MBind IO := λ A B k m, io_bind m k.

Definition lower_ascii (c : Ascii.ascii) : Ascii.ascii :=
  let n := Ascii.N_of_ascii c in
  if ((65 <=? n) && (n <=? 90))%N then Ascii.ascii_of_N (n + 32) else c.

(** [str.lower] on ASCII, the parser's normal form of an option name. *)
Fixpoint lower (s : string) : string :=
  match s with
  | EmptyString => EmptyString
  | String c s => String (lower_ascii c) (lower s)
  end.

Fixpoint has_nul (s : string) : bool :=
  match s with
  | EmptyString => false
  | String c s => Ascii.eqb c Ascii.zero || has_nul s
  end.

Definition empty_config : ConfigParser :=
  {| cfg_defaults := ∅; cfg_sections := ∅ |}.

Section Setup.

Variable services : Services.

(** [config.read(path)] skips a file that is not there. *)
Definition get_config (path : string) : IO ConfigParser := λ w,
  match files w !! path with
  | None => (w, Done empty_config)
  | Some parsed => (w, parsed)
  end.

(** [config[section][option]] *)
Definition getitem (config : ConfigParser) (section option : string)
  : outcome string :=
  let get (options : gmap string string) :=
    match options !! lower option with
    | Some raw => before_get services config section (lower option) raw
    | None =>
        match cfg_defaults config !! lower option with
        | Some raw => before_get services config section (lower option) raw
        | None => Raised (KeyError option)
        end
    end in
  if bool_decide (section = "DEFAULT") then get ∅
  else match cfg_sections config !! section with
       | Some options => get options
       | None => Raised (KeyError section)
       end.

(** [os.environ[name] = value] *)
Definition setenv (name value : string) : IO unit := λ w,
  if has_nul value then (w, Raised EnvironError)
  else ({| files := files w; environ := <[name := value]> (environ w);
           buckets := buckets w |}, Done ()).

Definition set_env_vars : IO unit :=
  config ← get_config "dl.cfg";
  access ← io_lift (getitem config "AWS" "AWS_ACCESS_KEY_ID");
  setenv "AWS_ACCESS_KEY_ID" access;;
  secret ← io_lift (getitem config "AWS" "AWS_SECRET_ACCESS_KEY");
  setenv "AWS_SECRET_ACCESS_KEY" secret.

Definition create_spark_session : IO SparkSession :=
  io_ret (getOrCreate services).

(** [s3.list_buckets()] and [s3.create_bucket(Bucket=name)] of a client for
    a key pair. *)
Definition list_buckets (access secret : string) : IO (list string) := λ w,
  if valid_credentials services access secret then (w, Done (buckets w))
  else (w, Raised (ClientError "ListBuckets")).

Definition create_bucket (access secret name : string) : IO unit := λ w,
  if valid_credentials services access secret && creatable services name
  then ({| files := files w; environ := environ w;
           buckets := buckets w ++ [name] |}, Done ())
  else (w, Raised (ClientError "CreateBucket")).

Definition create_bucket_if_not_exists (bucket_name : string) : IO unit :=
  config ← get_config "dl.cfg";
  aws_access_key_id ← io_lift (getitem config "AWS" "aws_access_key_id");
  aws_secret_access_key ←
    io_lift (getitem config "AWS" "aws_secret_access_key");
  existing_buckets ← list_buckets aws_access_key_id aws_secret_access_key;
  if bool_decide (bucket_name ∈ existing_buckets) then io_ret ()
  else create_bucket aws_access_key_id aws_secret_access_key bucket_name.

(** [main], on a sink: the setup, then the three steps.  Whether the store
    can hold a table at a path is not part of the model. *)
Definition main (tz : TimeZone) (fs : gmap string Parquet)
  : IO (gmap string Parquet) :=
  set_env_vars;;
  spark ← create_spark_session;
  let src_s3_path := "s3a://udacity-dend/" in
  let dst_bucket_name := "spark-data-lake-etl" in
  let dst_s3_path := "s3a://" +:+ dst_bucket_name in
  create_bucket_if_not_exists dst_bucket_name;;
  let spark_etl := {| spark := spark; src := src_s3_path;
                      dst := dst_s3_path |} in
  io_lift (match run tz spark_etl fs with
           | OK fs' => Done fs'
           | Err e => Raised (JobError e)
           end).

End Setup.

(** ** The tables, row by row *)

(** The schemas the five [select]s leave. *)
Definition songs_columns : list string :=
  ["song_id"; "title"; "artist_id"; "year"; "duration"].
Definition artists_columns : list string :=
  ["artist_id"; "name"; "location"; "latitude"; "longitude"].
Definition users_columns : list string :=
  ["user_id"; "first_name"; "last_name"; "gender"; "level"; "ts"].
Definition time_columns : list string :=
  ["start_time"; "week"; "hour"; "day"; "month"; "year"].
Definition songplays_columns : list string :=
  ["user_id"; "level"; "song_id"; "artist_id"; "sessionId"; "location";
   "userAgent"].

(** The value of column [name] in a row of a table with schema [cols]. *)
Definition field (cols : list string) (name : string) (r : list value)
  : value :=
  match index_of name cols with
  | Some i => default VNull (r !! i)
  | None => VNull
  end.

Definition song_projection (x : SongData.t) : list value :=
  [string_value (SongData.song_id x);
   string_value (SongData.title x);
   string_value (SongData.artist_id x);
   long_value (SongData.year x);
   double_value (SongData.duration x)].

Definition artist_projection (x : SongData.t) : list value :=
  [string_value (SongData.artist_id x);
   string_value (SongData.artist_name x);
   string_value (SongData.artist_location x);
   double_value (SongData.artist_latitude x);
   double_value (SongData.artist_longitude x)].

(** The row [distinct] makes of it. *)
Definition artist_row (x : SongData.t) : list value :=
  normalize <$> artist_projection x.

(** A coordinate that is not the negative zero. *)
Definition unsigned_zero (o : option spec_float) : Prop :=
  o ≠ Some (S754_zero true).

Definition user_projection (l : LogData.t) : list value :=
  [string_value (LogData.userId l);
   string_value (LogData.firstName l);
   string_value (LogData.lastName l);
   string_value (LogData.gender l);
   string_value (LogData.level l);
   long_value (LogData.ts l)].

Definition songplay_projection (p : SongData.t * LogData.t) : list value :=
  [string_value (LogData.userId p.2);
   string_value (LogData.level p.2);
   string_value (SongData.song_id p.1);
   string_value (SongData.artist_id p.1);
   long_value (LogData.sessionId p.2);
   string_value (LogData.location p.2);
   string_value (LogData.userAgent p.2)].

(** The cells of a joined row once [start_time] is added: those of the two
    records, then the delayed call of the UDF. *)
Definition joined_cells (tz : TimeZone) (p : SongData.t * LogData.t) : row :=
  song_row p.1 ++ log_row p.2 ++
  [udf_timestamp tz (parse_timestamp tz) (long_value (LogData.ts p.2))].

(** The row of the time table for a log record, if its [ts] parses. *)
Definition time_projection (tz : TimeZone) (l : LogData.t)
  : result (list value) :=
  d ← parse_timestamp tz (LogData.ts l);
  let start_time := to_timestamp tz d in
  OK [VTimestamp start_time;
      VInt (in_zone Calendar.weekofyear tz start_time);
      VInt (in_zone Calendar.hour tz start_time);
      VInt (in_zone Calendar.dayofmonth tz start_time);
      VInt (in_zone Calendar.month tz start_time);
      VInt (in_zone Calendar.year tz start_time)].

(** All pairs of a record of [l] and a record of [k], in the order in
    which the join emits them: those of the first record of [k] first,
    and for each the records of [l] from the last to the first. *)
Definition pairs {A B} (l : list A) (k : list B) : list (A * B) :=
  y ← k; x ← reverse l; [(x, y)].

(** The join condition: both names present and string-equal. *)
Definition artist_matches (s : SongData.t) (l : LogData.t) : Prop :=
  is_Some (LogData.artist l) ∧ SongData.artist_name s = LogData.artist l.

Definition is_next_song (l : LogData.t) : Prop :=
  LogData.page l = Some "NextSong".

Definition plays (p : SongData.t * LogData.t) : Prop :=
  artist_matches p.1 p.2 ∧ is_next_song p.2.

Global Instance artist_matches_dec s l : Decision (artist_matches s l).
Proof. unfold artist_matches. apply _. Defined.
Global Instance is_next_song_dec l : Decision (is_next_song l).
Proof. unfold is_next_song. apply _. Defined.
Global Instance plays_dec p : Decision (plays p).
Proof. unfold plays. apply _. Defined.

(** An activity record that plays a song of some catalogued artist. *)
Definition eligible (songs : list SongData.t) (l : LogData.t) : Prop :=
  is_next_song l ∧ Exists (λ s, artist_matches s l) songs.

Global Instance eligible_dec songs l : Decision (eligible songs l).
Proof. unfold eligible. apply _. Defined.

(** The order of the users table: [user_id] ascending with nulls first,
    then [ts] descending with nulls last. *)
Definition user_id_le (a b : option string) : Prop :=
  match a, b with
  | None, _ => True
  | Some _, None => False
  | Some x, Some y => String.leb x y = true
  end.

Definition ts_ge (a b : option Z) : Prop :=
  match a, b with
  | _, None => True
  | None, Some _ => False
  | Some x, Some y => y ≤ x
  end.

Definition users_order (l1 l2 : LogData.t) : Prop :=
  user_id_le (LogData.userId l1) (LogData.userId l2) ∧
  (LogData.userId l1 = LogData.userId l2 →
   ts_ge (LogData.ts l1) (LogData.ts l2)).

(** The sort keys [orderBy] computes for a row of the users table. *)
Definition user_keys (l : LogData.t) : list sortable :=
  [sort_key (string_value (LogData.userId l));
   sort_key (long_value (LogData.ts l))].

(** [a >= b] on the values of a descending long column, nulls last. *)
Definition long_value_ge (a b : value) : Prop :=
  match a, b with
  | _, VNull => True
  | VLong x, VLong y => y ≤ x
  | _, _ => False
  end.

(** ** The sink *)

(** The five paths a run writes. *)
Definition table_paths (self : SparkETL) : list string :=
  [dst self +:+ "songs_table.parquet";
   dst self +:+ "artists_table.parquet";
   dst self +:+ "users_table.parquet";
   dst self +:+ "time_table.parquet";
   dst self +:+ "songplays.parquet"].

(** A table whose rows have one value per column and whose partition
    columns are columns. *)
Definition well_formed (t : Parquet) : Prop :=
  Forall (λ r, List.length r = List.length (pq_columns t)) (pq_rows t) ∧
  pq_partitionBy t ⊆ pq_columns t.

(** ** Example records *)

Definition example_song (song_id title artist_id artist_name : string)
  : SongData.t :=
  {| SongData.artist_id := Some artist_id;
     SongData.artist_latitude := None;
     SongData.artist_location := None;
     SongData.artist_longitude := None;
     SongData.artist_name := Some artist_name;
     SongData.duration := None;
     SongData.num_songs := Some 1;
     SongData.song_id := Some song_id;
     SongData.title := Some title;
     SongData.year := Some 2000 |}.

Definition example_event (artist : option string) (page userId level : string)
    (ts : option Z) : LogData.t :=
  {| LogData.artist := artist;
     LogData.auth := Some "Logged In";
     LogData.firstName := None;
     LogData.gender := None;
     LogData.itemInSession := Some 0;
     LogData.lastName := None;
     LogData.length := None;
     LogData.level := Some level;
     LogData.location := None;
     LogData.method := Some "PUT";
     LogData.page := Some page;
     LogData.registration := None;
     LogData.sessionId := Some 1;
     LogData.song := None;
     LogData.status := Some 200;
     LogData.ts := ts;
     LogData.userAgent := None;
     LogData.userId := Some userId |}.

(** Two songs of one artist, and one play of that artist. *)
Definition two_songs_of_X : list SongData.t :=
  [example_song "S1" "T1" "A1" "X"; example_song "S2" "T2" "A1" "X"].
Definition one_play_of_X : list LogData.t :=
  [example_event (Some "X") "NextSong" "U1" "free" (Some 1000)].

(** An event without artist, as the log has them for pages other than a
    play, here with the page of a play and without [ts]. *)
Definition event_without_artist : LogData.t :=
  example_event None "NextSong" "U1" "free" None.


(** Two records of one artist that disagree on the artist's name. *)
Definition two_names_of_A1 : list SongData.t :=
  [example_song "S1" "T1" "A1" "X"; example_song "S2" "T2" "A1" "Y"].

(** Two events of one user, one second apart. *)
Definition two_events : list LogData.t :=
  [example_event (Some "X") "NextSong" "U1" "free" (Some 1000);
   example_event None "Home" "U1" "free" (Some 2000)].

(** A session that finds two catalog records and two events, and the
    program's object on it, with the paths of [main]. *)
Definition example_session : SparkSession :=
  {| read_song_json := λ _, OK two_names_of_A1;
     read_log_json := λ _, OK two_events |}.

(** A session that finds no file of either data set. *)
Definition path_not_found (path : string) : error :=
  AnalysisException ("Path does not exist: " +:+ path).

Definition empty_session : SparkSession :=
  {| read_song_json := λ path, Err (path_not_found path);
     read_log_json := λ path, Err (path_not_found path) |}.

(** Two records of one artist whose latitudes are the two zeros. *)
Definition example_song_at (song_id : string) (latitude : spec_float)
  : SongData.t :=
  {| SongData.artist_id := Some "A1";
     SongData.artist_latitude := Some latitude;
     SongData.artist_location := None;
     SongData.artist_longitude := None;
     SongData.artist_name := Some "X";
     SongData.duration := None;
     SongData.num_songs := Some 1;
     SongData.song_id := Some song_id;
     SongData.title := None;
     SongData.year := Some 2000 |}.

Definition two_zeros_of_A1 : list SongData.t :=
  [example_song_at "S1" (S754_zero false);
   example_song_at "S2" (S754_zero true)].



Definition example_etl : SparkETL :=
  {| spark := example_session;
     src := "s3a://udacity-dend/";
     dst := "s3a://spark-data-lake-etl" |}.

(** A configuration with a key pair, the services of an account that
    accepts it, and a world that holds the file and one bucket. *)
Definition example_config : ConfigParser :=
  {| cfg_defaults := ∅;
     cfg_sections :=
       {[ "AWS" := {[ "aws_access_key_id" := "AKIA";
                      "aws_secret_access_key" := "wJal" ]} ]} |}.

Definition example_services : Services :=
  {| before_get := λ _ _ _ raw, Done raw;
     valid_credentials := λ access secret,
       bool_decide (access = "AKIA" ∧ secret = "wJal");
     creatable := λ _, true;
     getOrCreate := example_session |}.

Definition example_world : World :=
  {| files := {[ "dl.cfg" := Done example_config ]};
     environ := {[ "HOME" := "/root" ]};
     buckets := ["udacity-dend"] |}.

(** The same world after [set_env_vars], and after the bucket is there. *)
Definition example_world_exported : World :=
  {| files := files example_world;
     environ := <["AWS_SECRET_ACCESS_KEY" := "wJal"]>
                  (<["AWS_ACCESS_KEY_ID" := "AKIA"]> (environ example_world));
     buckets := buckets example_world |}.

Definition example_world_with_bucket (w : World) : World :=
  {| files := files w; environ := environ w;
     buckets := buckets w ++ ["spark-data-lake-etl"] |}.

(** A file that lacks the secret key, and a world that holds it. *)
Definition example_config_without_secret : ConfigParser :=
  {| cfg_defaults := ∅;
     cfg_sections := {[ "AWS" := {[ "aws_access_key_id" := "AKIA" ]} ]} |}.

Definition example_world_without_secret : World :=
  {| files := {[ "dl.cfg" := Done example_config_without_secret ]};
     environ := {[ "HOME" := "/root" ]};
     buckets := ["udacity-dend"] |}.

(** * Properties *)

(** ** Calendar checks *)

Example calendar_epoch :
  Calendar.civil_from_days 0 = (1970, 1, 1) ∧ Calendar.weekofyear 0 0 = 1.
Proof. split; reflexivity. Qed.

(** 2018-11-15 00:30:26 UTC, a Thursday of ISO week 46. *)
Example calendar_2018_11_15 :
  let us := 1542241826 * 1000000 in
  (Calendar.year 0 us, Calendar.month 0 us, Calendar.dayofmonth 0 us,
   Calendar.hour 0 us, Calendar.weekofyear 0 us) = (2018, 11, 15, 0, 46).
Proof. reflexivity. Qed.

(** 2021-01-03 is a Sunday and belongs to ISO week 53 of 2020;
    2024-02-29 23:00 at UTC-2 is still 21:00 on the leap day. *)
Example calendar_edges :
  Calendar.weekofyear 0 (1609632000 * 1000000) = 53 ∧
  Calendar.civil_from_days (Calendar.local_day (-7200) (1709247600 * 1000000))
    = (2024, 2, 29) ∧
  Calendar.hour (-7200) (1709247600 * 1000000) = 21 ∧
  Calendar.datetime_min = -62135596800 ∧
  Calendar.datetime_max = 253402300799.
Proof. repeat split; reflexivity. Qed.

(** Every year from 1 to 9999 starts on its first of January, the day
    after the 31st of December before, and has 365 days, or 366 if it is
    a leap year. *)
Example calendar_years :
  forallb (λ y,
    let jan1 := Calendar.days_from_civil y 1 1 in
    bool_decide (Calendar.civil_from_days jan1 = (y, 1, 1)) &&
    bool_decide (Calendar.civil_from_days (jan1 - 1) = (y - 1, 12, 31)) &&
    (Calendar.days_from_civil (y + 1) 1 1 - jan1
     =? if Calendar.leap y then 366 else 365))
    (seqZ 1 9999) = true.
Proof. vm_compute. reflexivity. Qed.

(** Day numbers and dates correspond, day by day from 2000 to 2003. *)
Example calendar_days :
  forallb (λ z,
    let '(y, m, d) := Calendar.civil_from_days z in
    (Calendar.days_from_civil y m d =? z) &&
    (1 <=? m) && (m <=? 12) && (1 <=? d) && (d <=? 31))
    (seqZ (Calendar.days_from_civil 2000 1 1) 1461) = true.
Proof. vm_compute. reflexivity. Qed.

(** ** Traversals *)

Section traverse.
Context {A B : Type}.
Implicit Types (f : A → result B) (l : list A).

Lemma traverse_ext f g l :
  (∀ x, x ∈ l → f x = g x) → traverse f l = traverse g l.
Proof.
  induction l as [|x l IH]; intros H; simpl; [done|].
  rewrite H by left. rewrite IH; [done|]. intros y Hy. apply H. by right.
Qed.

Lemma traverse_OK f (h : A → B) l :
  (∀ x, x ∈ l → f x = OK (h x)) → traverse f l = OK (h <$> l).
Proof.
  induction l as [|x l IH]; intros H; simpl; [done|].
  rewrite H by left. simpl. rewrite IH; [done|]. intros y Hy. apply H. by right.
Qed.

Lemma traverse_OK_Forall2 f l ys :
  traverse f l = OK ys ↔ Forall2 (λ x y, f x = OK y) l ys.
Proof.
  revert ys. induction l as [|x l IH]; intros ys; simpl.
  - split; [intros [= <-]; constructor | by inversion 1].
  - split.
    + destruct (f x) as [y|] eqn:Hx; simpl; [|done].
      destruct (traverse f l) as [ys'|] eqn:Hl; simpl; [|done].
      intros [= <-]. constructor; [done|]. by apply IH.
    + inversion 1 as [|? y ? ys' Hx Hl]; subst. rewrite Hx. simpl.
      apply IH in Hl. by rewrite Hl.
Qed.

Lemma traverse_OK_length f l ys :
  traverse f l = OK ys → List.length ys = List.length l.
Proof. rewrite traverse_OK_Forall2. intros H. symmetry. by eapply Forall2_length. Qed.

Lemma traverse_is_OK f l :
  (∀ x, x ∈ l → is_OK (f x)) → is_OK (traverse f l).
Proof.
  induction l as [|x l IH]; intros H; simpl; [by eexists|].
  destruct (H x) as [y ->]; [by left|]. simpl.
  destruct IH as [ys ->]; [intros; apply H; by right|]. by eexists.
Qed.

Lemma traverse_Err f l e :
  traverse f l = Err e → ∃ x, x ∈ l ∧ f x = Err e.
Proof.
  induction l as [|x l IH]; simpl; [done|].
  destruct (f x) as [y|e'] eqn:Hx; simpl.
  - destruct (traverse f l) as [ys|e'']; simpl; [done|].
    intros [= ->]. destruct IH as (x' & ? & ?); [done|].
    exists x'. split; [by right|done].
  - intros [= ->]. exists x. split; [by left|done].
Qed.

Lemma traverse_elem_Err f l x e :
  x ∈ l → f x = Err e → is_Err (traverse f l).
Proof.
  induction l as [|y l IH]; [by inversion 1|].
  intros Hin Hx. simpl. destruct (f y) as [b|e'] eqn:Hy; simpl; [|by eexists].
  apply elem_of_cons in Hin as [->|Hin]; [congruence|].
  destruct (IH Hin Hx) as [e'' ->]. by eexists.
Qed.

End traverse.

Lemma traverse_fmap {A B C} (f : B → result C) (g : A → B) l :
  traverse f (g <$> l) = traverse (f ∘ g) l.
Proof.
  induction l as [|x l IH]; [done|]. rewrite fmap_cons. simpl. by rewrite IH.
Qed.

Lemma force_ready (v : list value) (rest : row) :
  force (List.length v) (ready v ++ rest) = OK v.
Proof.
  unfold force, ready.
  rewrite take_app_length' by (by rewrite length_fmap).
  rewrite traverse_fmap. rewrite (traverse_OK _ id); [by rewrite list_fmap_id|done].
Qed.

(** ** Deduplication *)

Section first_per_key.
Context {A K : Type} `{EqDecision K} (key : A → K).

Lemma first_per_key_elem seen l x :
  x ∈ first_per_key key seen l → x ∈ l ∧ key x ∉ seen.
Proof.
  revert seen. induction l as [|y l IH]; intros seen; simpl; [by inversion 1|].
  destruct (decide (key y ∈ seen)) as [Hy|Hy].
  - intros [??]%IH. split; [by right|done].
  - intros [->|[? Hx]%IH]%elem_of_cons; [split; [by left|done]|].
    split; [by right|]. intros ?. apply Hx. by right.
Qed.

Lemma first_per_key_NoDup seen l :
  NoDup (key <$> first_per_key key seen l).
Proof.
  revert seen. induction l as [|y l IH]; intros seen; simpl; [constructor|].
  destruct (decide (key y ∈ seen)); [done|].
  rewrite fmap_cons. constructor; [|done].
  intros (z & Hz & [_ Hseen]%first_per_key_elem)%list_elem_of_fmap.
  apply Hseen. rewrite Hz. by left.
Qed.

Lemma first_per_key_complete seen l x :
  x ∈ l → key x ∉ seen → ∃ y, y ∈ first_per_key key seen l ∧ key y = key x.
Proof.
  revert seen. induction l as [|y l IH]; intros seen; [by inversion 1|].
  intros [->|Hx]%elem_of_cons Hseen; simpl.
  - rewrite decide_False by done. exists y. split; [by left|done].
  - destruct (decide (key y ∈ seen)); [by apply IH|].
    destruct (decide (key x = key y)) as [Heq|Hne].
    + exists y. split; [by left|done].
    + destruct (IH (key y :: seen) Hx) as (z & ? & ?).
      { by intros [?|?]%elem_of_cons. }
      exists z. split; [by right|done].
Qed.

End first_per_key.

Lemma first_per_key_id_elem `{EqDecision A} (l : list A) x :
  x ∈ first_per_key id [] l ↔ x ∈ l.
Proof.
  split; [by intros [??]%first_per_key_elem|].
  intros Hx. destruct (first_per_key_complete id [] l x Hx) as (y & ? & Hy);
    [by inversion 1|]. simpl in Hy. by subst.
Qed.

Lemma first_per_key_id_NoDup `{EqDecision A} (l : list A) :
  NoDup (first_per_key id [] l).
Proof.
  rewrite <- (list_fmap_id (first_per_key id [] l)).
  apply first_per_key_NoDup.
Qed.

(** ** Frames of mapped records *)

(** Every frame the program builds holds one row [g x] per element [x] of
    a list of records or pairs of records; the lemmas below follow the
    operations on frames of that form. *)
Section frames.
Context {A : Type}.
Implicit Types (g : A → row) (l : list A) (cols hid : list string).

Lemma collect_fmap cols hid g (h : A → list value) l :
  (∀ x, x ∈ l → force (List.length cols) (g x) = OK (h x)) →
  collect {| columns := cols; hidden := hid; rows := g <$> l |} = OK (h <$> l).
Proof.
  intros H. unfold collect. simpl. rewrite traverse_fmap.
  by apply traverse_OK.
Qed.

Lemma select_fmap cs fs cols hid g l :
  traverse (compile cols hid) cs = OK fs →
  select cs {| columns := cols; hidden := hid; rows := g <$> l |}
  = OK {| columns := name_of <$> cs; hidden := cols ++ hid;
          rows := (λ x, ((λ f : row → cell, f (g x)) <$> fs) ++ g x) <$> l |}.
Proof.
  intros H. unfold select. simpl. rewrite H. simpl.
  by rewrite <- list_fmap_compose.
Qed.

Lemma withColumn_fmap name c f cols hid g l :
  compile cols hid c = OK f →
  index_of name cols = None →
  withColumn name c {| columns := cols; hidden := hid; rows := g <$> l |}
  = OK {| columns := cols ++ [name]; hidden := hid;
          rows := (λ x, take (List.length cols) (g x) ++
                        f (g x) :: drop (List.length cols) (g x)) <$> l |}.
Proof.
  intros Hc Hi. unfold withColumn. simpl. rewrite Hc, Hi. simpl.
  by rewrite <- list_fmap_compose.
Qed.

Lemma where_rows_fmap (f : row → cell) g (P : A → Prop) `{∀ x, Decision (P x)} l :
  (∀ x, x ∈ l → f (g x) = OK (VBool (bool_decide (P x))) ∨
                 (f (g x) = OK VNull ∧ ¬ P x)) →
  where_rows f (g <$> l) = OK (g <$> filter P l).
Proof.
  induction l as [|x l IH]; intros Hf; [done|].
  rewrite fmap_cons. simpl. rewrite IH by (intros; apply Hf; by right).
  rewrite filter_cons.
  destruct (Hf x) as [->|[-> HP]]; [by left| |]; simpl.
  - destruct (decide (P x)) as [HP|HP].
    + rewrite (bool_decide_true (P x)) by done. by rewrite bool_decide_true.
    + rewrite (bool_decide_false (P x)) by done.
      rewrite bool_decide_false; [done|]. by intros [=].
  - by rewrite decide_False.
Qed.

Lemma where_fmap c (f : row → cell) (P : A → Prop) `{∀ x, Decision (P x)}
    cols hid g l :
  compile cols hid c = OK f →
  (∀ x, x ∈ l → f (g x) = OK (VBool (bool_decide (P x))) ∨
                 (f (g x) = OK VNull ∧ ¬ P x)) →
  where_ c {| columns := cols; hidden := hid; rows := g <$> l |}
  = OK {| columns := cols; hidden := hid; rows := g <$> filter P l |}.
Proof.
  intros Hc Hf. unfold where_. simpl. rewrite Hc. simpl.
  by rewrite (where_rows_fmap f g P).
Qed.

Lemma dropDuplicates_fmap subset idx cols hid g (h : A → list value) l :
  traverse (resolve cols []) subset = OK idx →
  (∀ x, x ∈ l → force (List.length cols) (g x) = OK (h x)) →
  (∀ x, x ∈ l → normalize_at idx (h x) = h x) →
  dropDuplicates subset {| columns := cols; hidden := hid; rows := g <$> l |}
  = OK {| columns := cols; hidden := [];
          rows := ready <$>
            first_per_key (λ v : list value,
                             (λ i, default VNull (v !! i)) <$> idx) []
              (h <$> l) |}.
Proof.
  intros Hi Hf Hn. unfold dropDuplicates. simpl. rewrite Hi. simpl.
  rewrite (collect_fmap _ _ _ h) by done. simpl.
  rewrite <- list_fmap_compose.
  by rewrite (list_fmap_ext (normalize_at idx ∘ h) h l)
    by (intros ? x ?%list_elem_of_lookup_2; by apply Hn).
Qed.

Lemma distinct_fmap cols hid g (h : A → list value) l :
  (∀ x, x ∈ l → force (List.length cols) (g x) = OK (h x)) →
  distinct {| columns := cols; hidden := hid; rows := g <$> l |}
  = OK {| columns := cols; hidden := [];
          rows := ready <$>
            first_per_key id [] ((λ x, normalize <$> h x) <$> l) |}.
Proof.
  intros Hf. unfold distinct. rewrite (collect_fmap _ _ _ h) by done. simpl.
  by rewrite <- list_fmap_compose.
Qed.

End frames.

Lemma collect_ready cols (vs : list (list value)) :
  (∀ v, v ∈ vs → List.length v = List.length cols) →
  collect {| columns := cols; hidden := []; rows := ready <$> vs |} = OK vs.
Proof.
  intros H. rewrite (collect_fmap _ _ _ id); [by rewrite list_fmap_id|].
  intros v Hv. rewrite <- (H v Hv), <- (app_nil_r (ready v)).
  apply force_ready.
Qed.

Lemma bind_pairs {A B A' B' C} (gl : A → A') (gr : B → B') (j : A' → B' → C)
    (ll : list A) (lr : list B) :
  (r ← gr <$> lr; l ← reverse (gl <$> ll); [j l r])
  = (λ p, j (gl p.1) (gr p.2)) <$> pairs ll lr.
Proof.
  unfold pairs. rewrite <- fmap_reverse.
  induction lr as [|y lr IH]; [done|].
  rewrite fmap_cons, !bind_cons, fmap_app, IH. f_equal.
  clear. induction (reverse ll) as [|x l IH]; [done|].
  rewrite fmap_cons, !bind_cons, fmap_app, IH. done.
Qed.

Lemma join_fmap {A B} on (f : row → cell) (P : A * B → Prop)
    `{∀ p, Decision (P p)} cl hl (gl : A → row) ll cr hr (gr : B → row) lr :
  compile (cl ++ cr) (hl ++ hr) on = OK f →
  (∀ p, p ∈ pairs ll lr →
     let r := join_row (List.length cl) (List.length cr) (gl p.1) (gr p.2) in
     f r = OK (VBool (bool_decide (P p))) ∨ (f r = OK VNull ∧ ¬ P p)) →
  join {| columns := cl; hidden := hl; rows := gl <$> ll |}
       {| columns := cr; hidden := hr; rows := gr <$> lr |} on
  = OK {| columns := cl ++ cr; hidden := hl ++ hr;
          rows := (λ p, join_row (List.length cl) (List.length cr)
                          (gl p.1) (gr p.2)) <$> filter P (pairs ll lr) |}.
Proof.
  intros Hc Hf. unfold join. cbn [columns hidden rows]. rewrite Hc.
  cbn [mbind result_bind].
  rewrite (bind_pairs gl gr (join_row (List.length cl) (List.length cr))).
  by rewrite (where_rows_fmap f _ P).
Qed.

(** ** The catalog tables *)

Lemma songs_table_frame (records : list SongData.t) :
  songs_table (song_frame records)
  = OK {| columns := songs_columns; hidden := [];
          rows := ready <$>
            first_per_key (λ r, [field songs_columns "song_id" r]) []
              (song_projection <$> records) |}.
Proof.
  unfold songs_table, song_frame.
  rewrite (select_fmap _ [get 7; get 8; get 0; get 9; get 5]) by reflexivity.
  cbn [mbind result_bind].
  rewrite (dropDuplicates_fmap _ [0%nat] _ _ _ song_projection);
    [reflexivity|reflexivity| |].
  - intros x _. by destruct x.
  - intros x _. unfold song_projection, normalize_at. cbn.
    by destruct (SongData.song_id x).
Qed.

Lemma song_projection_length x :
  List.length (song_projection x) = List.length songs_columns.
Proof. reflexivity. Qed.

Lemma songs_table_collect (records : list SongData.t) :
  songs_table (song_frame records) |> collect
  = OK (first_per_key (λ r, [field songs_columns "song_id" r]) []
          (song_projection <$> records)).
Proof.
  rewrite songs_table_frame. cbn [mbind result_bind].
  apply collect_ready.
  intros r [(x & -> & _)%list_elem_of_fmap _]%first_per_key_elem.
  apply song_projection_length.
Qed.

(** C3: the songs table has one row per [song_id] at most, and each of its
    rows is the projection (song_id, title, artist_id, year, duration) of
    an input record. *)
Theorem songs_table_unique_song_id (records : list SongData.t) :
  ∃ out,
    songs_table (song_frame records) |> collect = OK out ∧
    NoDup (field songs_columns "song_id" <$> out) ∧
    ∀ r, r ∈ out → ∃ x, x ∈ records ∧ r = song_projection x.
Proof.
  rewrite songs_table_collect. eexists. split; [done|]. split.
  - apply (NoDup_fmap_1 (λ v, [v])). rewrite <- list_fmap_compose.
    apply (first_per_key_NoDup (λ r, [field songs_columns "song_id" r])).
  - intros r [(x & -> & Hx)%list_elem_of_fmap _]%first_per_key_elem. eauto.
Qed.

Lemma artists_table_frame (records : list SongData.t) :
  artists_table (song_frame records)
  = OK {| columns := artists_columns; hidden := [];
          rows := ready <$> first_per_key id [] (artist_row <$> records) |}.
Proof.
  unfold artists_table, song_frame.
  rewrite (select_fmap _ [get 0; get 4; get 2; get 1; get 3]) by reflexivity.
  cbn [mbind result_bind].
  rewrite (distinct_fmap _ _ _ artist_projection); [reflexivity|].
  intros x _. by destruct x.
Qed.

Lemma artists_table_collect (records : list SongData.t) :
  artists_table (song_frame records) |> collect
  = OK (first_per_key id [] (artist_row <$> records)).
Proof.
  rewrite artists_table_frame. cbn [mbind result_bind].
  apply collect_ready.
  by intros r (x & -> & _)%first_per_key_id_elem%list_elem_of_fmap.
Qed.

Lemma normalize_idemp (v : value) : normalize (normalize v) = normalize v.
Proof. by destruct v as [| | | |[]| |]. Qed.

Lemma artist_row_normal (x : SongData.t) :
  normalize <$> artist_row x = artist_row x.
Proof.
  unfold artist_row. rewrite <- list_fmap_compose.
  apply list_fmap_ext. intros _ v _. apply normalize_idemp.
Qed.

(** Only the sign of a zero coordinate separates the row from the
    projection. *)
Lemma artist_row_unsigned (x : SongData.t) :
  unsigned_zero (SongData.artist_latitude x) →
  unsigned_zero (SongData.artist_longitude x) →
  artist_row x = artist_projection x.
Proof.
  unfold unsigned_zero, artist_row, artist_projection.
  destruct x as [aid lat loc lon name ? ? ? ? ?]; cbn.
  destruct aid, name, loc; destruct lat as [[[]| | |]|], lon as [[[]| | |]|];
    cbn; done.
Qed.

(** C4, as the code behaves.  The artists table has no two equal rows,
    also when the two zeros of a double count as equal, since no row holds
    a negative zero.  Two input records with one [artist_id] both have
    their row in it, and these are two rows, when the records differ in
    one of the five fields by more than the sign of a zero: the row of a
    record is its projection with a negative zero latitude or longitude
    replaced by the positive one. *)
Theorem artists_table_distinct_rows (records : list SongData.t) :
  ∃ out,
    artists_table (song_frame records) |> collect = OK out ∧
    NoDup out ∧
    (∀ r, r ∈ out → normalize <$> r = r) ∧
    (∀ x, unsigned_zero (SongData.artist_latitude x) →
          unsigned_zero (SongData.artist_longitude x) →
          artist_row x = artist_projection x) ∧
    ∀ x y, x ∈ records → y ∈ records →
      SongData.artist_id x = SongData.artist_id y →
      artist_row x ≠ artist_row y →
      artist_row x ∈ out ∧ artist_row y ∈ out ∧
      field artists_columns "artist_id" (artist_row x)
      = field artists_columns "artist_id" (artist_row y).
Proof.
  rewrite artists_table_collect. eexists. split; [done|].
  split; [apply first_per_key_id_NoDup|].
  split.
  { intros r (x & -> & _)%first_per_key_id_elem%list_elem_of_fmap.
    apply artist_row_normal. }
  split; [apply artist_row_unsigned|].
  intros x y Hx Hy Hid _.
  rewrite !first_per_key_id_elem, !list_elem_of_fmap.
  split; [eauto|]. split; [eauto|].
  unfold artist_row, artist_projection. cbn. rewrite Hid.
  by destruct (SongData.artist_id y).
Qed.

(** C4 fails as stated: two records of one artist whose latitudes are the
    positive and the negative zero differ in a field, and the table has a
    single row for both. *)
Lemma artists_table_signed_zero_collapses :
  ¬ ∀ records x y out,
      x ∈ records → y ∈ records →
      SongData.artist_id x = SongData.artist_id y →
      artist_projection x ≠ artist_projection y →
      artists_table (song_frame records) |> collect = OK out →
      artist_projection x ∈ out ∧ artist_projection y ∈ out.
Proof.
  intros H.
  destruct (H two_zeros_of_A1
              (example_song_at "S1" (S754_zero false))
              (example_song_at "S2" (S754_zero true))
              [artist_projection (example_song_at "S1" (S754_zero false))])
    as [_ Hy].
  - apply list_elem_of_here.
  - apply list_elem_of_further, list_elem_of_here.
  - reflexivity.
  - discriminate.
  - reflexivity.
  - apply list_elem_of_singleton in Hy. discriminate.
Qed.

(** ** Ordering *)

Lemma string_leb_trans (a b c : string) :
  String.leb a b = true → String.leb b c = true → String.leb a c = true.
Proof.
  unfold String.leb. revert b c.
  induction a as [|x a IH]; intros [|y b] [|z c]; simpl; try done.
  specialize (IH b c). unfold Ascii.compare.
  destruct (N.compare_spec (Ascii.N_of_ascii x) (Ascii.N_of_ascii y)),
    (N.compare_spec (Ascii.N_of_ascii y) (Ascii.N_of_ascii z)),
    (N.compare_spec (Ascii.N_of_ascii x) (Ascii.N_of_ascii z));
    try done; try lia.
Qed.

Lemma string_leb_refl (a : string) : String.leb a a = true.
Proof. by destruct (String.leb_total a a). Qed.

Lemma sortable_le_total (a b : sortable) :
  sortable_le a b = true ∨ sortable_le b a = true.
Proof.
  destruct a, b; simpl; auto using String.leb_total.
  destruct (Z.leb_spec n n0), (Z.leb_spec n0 n); auto; lia.
Qed.

Lemma keys_le_total dirs ks1 ks2 :
  keys_le dirs ks1 ks2 = true ∨ keys_le dirs ks2 ks1 = true.
Proof.
  revert ks1 ks2. induction dirs as [|d dirs IH]; intros [|a ks1] [|b ks2];
    simpl; auto.
  destruct (sortable_le_total a b), d;
    destruct (sortable_le a b), (sortable_le b a); auto; done.
Qed.

Global Instance keyed_le_total {A} dirs : Total (@keyed_le A dirs).
Proof. intros p q. apply keys_le_total. Qed.

Lemma Sorted_fmap_inv {A B} (R : relation B) (f : A → B) l :
  Sorted R (f <$> l) → Sorted (λ x y, R (f x) (f y)) l.
Proof.
  induction l as [|x l IH]; [constructor|].
  rewrite fmap_cons. inversion 1 as [|?? Hs Hh]; subst.
  constructor; [by apply IH|].
  destruct l; [constructor|]. inversion Hh; subst. by constructor.
Qed.

Lemma Sorted_weaken {A} (R R' : relation A) l :
  (∀ x y, R x y → R' x y) → Sorted R l → Sorted R' l.
Proof.
  intros HR. induction 1 as [|x l _ IH Hh]; constructor; [done|].
  destruct Hh; constructor; auto.
Qed.

Lemma orderBy_fmap {A} cs fs cols hid (g : A → row) (k : A → list sortable) l :
  traverse (compile_order cols hid) cs = OK fs →
  (∀ x, x ∈ l →
     traverse (λ f : row → cell, v ← f (g x); OK (sort_key v)) (fst <$> fs)
     = OK (k x)) →
  ∃ l', l' ≡ₚ l ∧
        Sorted (λ x y, keys_le (snd <$> fs) (k x) (k y) = true) l' ∧
        orderBy cs {| columns := cols; hidden := hid; rows := g <$> l |}
        = OK {| columns := cols; hidden := hid; rows := g <$> l' |}.
Proof.
  intros Hc Hk. unfold orderBy. cbn [columns hidden rows]. rewrite Hc.
  cbn [mbind result_bind]. rewrite traverse_fmap.
  rewrite (traverse_OK _ (λ x, (k x, g x))).
  2:{ intros x Hx. unfold keys_of. simpl. by rewrite (Hk x Hx). }
  cbn [mbind result_bind].
  set (R := keyed_le (snd <$> fs)).
  set (h := λ x, (k x, g x)).
  assert (merge_sort R (h <$> l) ≡ₚ map h l) as Hp
    by apply (merge_sort_Permutation R).
  apply Permutation_map_inv in Hp as (l' & Hl' & Hperm).
  exists l'. split; [by symmetry|]. split.
  - apply (Sorted_fmap_inv R h). change (Sorted R (map h l')).
    rewrite <- Hl'. apply (Sorted_merge_sort R).
  - rewrite Hl'. change (map h l') with (h <$> l').
    by rewrite <- list_fmap_compose.
Qed.

(** ** The users table *)

Lemma user_id_le_trans a b c :
  user_id_le a b → user_id_le b c → user_id_le a c.
Proof. destruct a, b, c; simpl; try done. apply string_leb_trans. Qed.

Lemma user_id_le_antisym a b : user_id_le a b → user_id_le b a → a = b.
Proof.
  destruct a, b; simpl; try done. intros ??. f_equal. by apply String.leb_antisym.
Qed.

Lemma ts_ge_trans a b c : ts_ge a b → ts_ge b c → ts_ge a c.
Proof. destruct a, b, c; simpl; try done. lia. Qed.

Global Instance users_order_trans : Transitive users_order.
Proof.
  intros x y z [Hxy Hxy'] [Hyz Hyz']. split; [by eapply user_id_le_trans|].
  intros Heq. rewrite Heq in Hxy.
  pose proof (user_id_le_antisym _ _ Hyz Hxy) as Hyz''.
  eapply ts_ge_trans; [apply Hxy'; congruence|by apply Hyz'].
Qed.

Lemma user_keys_order x y :
  keys_le [false; true] (user_keys x) (user_keys y) = true → users_order x y.
Proof.
  unfold user_keys, users_order.
  destruct (LogData.userId x) as [a|], (LogData.userId y) as [b|],
    (LogData.ts x) as [s|], (LogData.ts y) as [t|]; simpl;
    repeat match goal with
      | |- context [String.leb ?u ?v] => destruct (String.leb u v) eqn:?
      | |- context [Z.leb ?u ?v] => destruct (Z.leb_spec u v)
      end; try done; intros _; (split; [done|]); try done;
    intros [= ->]; try lia; by rewrite string_leb_refl in *.
Qed.

Lemma users_table_frame (records : list LogData.t) :
  ∃ sorted,
    sorted ≡ₚ records ∧ Sorted users_order sorted ∧
    users_table (log_frame records)
    = OK {| columns := users_columns;
            hidden := fst <$> schema_log_data;
            rows := (λ x, ready (user_projection x) ++ log_row x) <$> sorted |}.
Proof.
  unfold users_table, log_frame.
  rewrite (select_fmap _ [get 17; get 2; get 5; get 3; get 7; get 15])
    by reflexivity.
  cbn [mbind result_bind].
  match goal with
  | |- context [orderBy ?cs {| columns := ?c; hidden := ?h; rows := ?g <$> ?l |}] =>
      destruct (orderBy_fmap cs [(get 0, false); (get 5, true)] c h g
                  user_keys l) as (sorted & ? & Hs & Heq);
        [reflexivity|by intros [] _|]
  end.
  exists sorted. split; [done|]. split.
  - eapply Sorted_weaken; [|exact Hs]. apply user_keys_order.
  - by rewrite Heq.
Qed.

Lemma Sorted_adjacent {A} (R : relation A) l i a b :
  Sorted R l → l !! i = Some a → l !! S i = Some b → R a b.
Proof.
  intros Hs. revert i. induction Hs as [|x l _ IH Hh]; intros i; [done|].
  destruct i as [|i]; simpl.
  - intros [= ->] Hb. destruct Hh as [|y l' Hxy]; [done|].
    simpl in Hb. by injection Hb as ->.
  - apply IH.
Qed.

Lemma user_projection_length x :
  List.length (user_projection x) = List.length users_columns.
Proof. reflexivity. Qed.

(** C5: the users table has one row per input record, in the order
    [user_id] ascending, [ts] descending; of two adjacent rows with one
    [user_id], the earlier has the greater or equal [ts]. *)
Theorem users_table_sorted (records : list LogData.t) :
  ∃ sorted out,
    users_table (log_frame records) |> collect = OK out ∧
    out = user_projection <$> sorted ∧
    sorted ≡ₚ records ∧
    List.length out = List.length records ∧
    StronglySorted users_order sorted ∧
    ∀ i r1 r2, out !! i = Some r1 → out !! S i = Some r2 →
      field users_columns "user_id" r1 = field users_columns "user_id" r2 →
      long_value_ge (field users_columns "ts" r1) (field users_columns "ts" r2).
Proof.
  destruct (users_table_frame records) as (sorted & Hperm & Hsorted & ->).
  exists sorted, (user_projection <$> sorted).
  cbn [mbind result_bind].
  split.
  { apply collect_fmap. intros x _.
    exact (force_ready (user_projection x) (log_row x)). }
  split; [done|]. split; [done|].
  split. { by rewrite length_fmap, Hperm. }
  split. { apply Sorted_StronglySorted; [apply users_order_trans|done]. }
  intros i r1 r2.
  rewrite !list_lookup_fmap.
  destruct (sorted !! i) as [a|] eqn:Ha; [|done].
  destruct (sorted !! S i) as [b|] eqn:Hb; [|done].
  intros [= <-] [= <-] Hid.
  destruct (Sorted_adjacent _ _ _ _ _ Hsorted Ha Hb) as [_ Hts].
  revert Hid Hts. cbn.
  destruct (LogData.userId a), (LogData.userId b); try done.
  - intros [= ->] Hts. specialize (Hts eq_refl).
    by destruct (LogData.ts a), (LogData.ts b).
  - intros _ Hts. specialize (Hts eq_refl).
    by destruct (LogData.ts a), (LogData.ts b).
Qed.

(** ** The songplays table *)

Section songplays.
Context (tz : TimeZone).

Lemma songplays_table_frame songs logs :
  songplays_table tz (song_frame songs) (log_frame logs)
  = OK {| columns := songplays_columns;
          hidden := (fst <$> schema_song_data) ++ (fst <$> schema_log_data)
                    ++ ["start_time"];
          rows := (λ p, ready (songplay_projection p) ++ joined_cells tz p) <$>
                    filter plays (pairs songs logs) |}.
Proof.
  unfold songplays_table, song_frame, log_frame.
  erewrite (join_fmap _ (λ r, x ← get 4 r; y ← get 10 r; OK (sql_eq x y))
              (λ p, artist_matches p.1 p.2)); [|reflexivity|].
  2:{ intros [[] []] _. unfold artist_matches. cbn.
      destruct artist_name as [a|], artist as [b|]; cbn.
      - left. do 2 f_equal. apply bool_decide_ext. split.
        + intros [= ->]. split; [by eexists|done].
        + by intros [_ [= ->]].
      - right. split; [done|]. by intros [[] _].
      - right. split; [done|]. by intros [_ ?].
      - right. split; [done|]. by intros [[] _]. }
  cbn [mbind result_bind].
  erewrite withColumn_fmap; [|reflexivity|reflexivity].
  cbn [mbind result_bind].
  erewrite (select_fmap _ [get 27; get 17; get 7; get 0; get 22; get 18; get 26]);
    [|reflexivity].
  cbn [mbind result_bind].
  erewrite (where_fmap _ _ (λ p, is_next_song p.2)); [|reflexivity|].
  2:{ intros [[] []] _. unfold is_next_song. cbn. destruct page as [s|]; cbn.
      - left. do 2 f_equal. apply bool_decide_ext. split; congruence.
      - right. done. }
  rewrite list_filter_filter.
  rewrite (list_filter_iff _ plays) by (unfold plays; tauto).
  reflexivity.
Qed.

Lemma songplays_table_collect songs logs :
  songplays_table tz (song_frame songs) (log_frame logs) |> collect
  = OK (songplay_projection <$> filter plays (pairs songs logs)).
Proof.
  rewrite songplays_table_frame. cbn [mbind result_bind].
  apply collect_fmap. intros p _.
  exact (force_ready (songplay_projection p) (joined_cells tz p)).
Qed.

Lemma elem_of_pairs {A B} (l : list A) (k : list B) x y :
  (x, y) ∈ pairs l k ↔ x ∈ l ∧ y ∈ k.
Proof.
  unfold pairs. rewrite list_elem_of_bind. split.
  - intros (y' & (x' & [= -> ->]%list_elem_of_singleton & Hx)
                   %list_elem_of_bind & ?).
    by rewrite elem_of_reverse in Hx.
  - intros [??]. exists y. split; [|done].
    apply list_elem_of_bind. exists x.
    split; [by apply list_elem_of_singleton|by rewrite elem_of_reverse].
Qed.

(** C1, as the join computes it: one row for every pair of a catalog
    record and an activity record whose names are present and equal and
    whose page is "NextSong"; an activity record that is not such a play of
    a catalogued artist is in no pair. *)
Theorem songplays_one_row_per_matching_pair (songs : list SongData.t)
    (logs : list LogData.t) :
  ∃ matches out,
    songplays_table tz (song_frame songs) (log_frame logs) |> collect = OK out ∧
    out = songplay_projection <$> matches ∧
    matches = filter plays (pairs songs logs) ∧
    (∀ s l, (s, l) ∈ matches ↔
       s ∈ songs ∧ l ∈ logs ∧ artist_matches s l ∧ is_next_song l) ∧
    (∀ l, ¬ eligible songs l → ∀ s, (s, l) ∉ matches).
Proof.
  exists (filter plays (pairs songs logs)),
    (songplay_projection <$> filter plays (pairs songs logs)).
  split; [apply songplays_table_collect|]. split; [done|]. split; [done|].
  assert (∀ s l, (s, l) ∈ filter plays (pairs songs logs) ↔
            s ∈ songs ∧ l ∈ logs ∧ artist_matches s l ∧ is_next_song l) as Hin.
  { intros s l. rewrite list_elem_of_filter, elem_of_pairs. unfold plays.
    simpl. tauto. }
  split; [done|].
  intros l Hl s (Hs & _ & Hm & Hp)%Hin. apply Hl. split; [done|].
  apply Exists_exists. eauto.
Qed.

Lemma pairs_cons {A B} (l : list A) (y : B) (k : list B) :
  pairs l (y :: k) = ((λ x, (x, y)) <$> reverse l) ++ pairs l k.
Proof.
  unfold pairs. rewrite bind_cons. by f_equal.
Qed.

Lemma pairs_app_r {A B} (l : list A) (k1 k2 : list B) :
  pairs l (k1 ++ k2) = pairs l k1 ++ pairs l k2.
Proof. unfold pairs. apply bind_app. Qed.

Lemma filter_nil_Forall {A} (P : A → Prop) `{∀ x, Decision (P x)} (l : list A) :
  Forall (λ x, ¬ P x) l → filter P l = [].
Proof.
  induction 1 as [|x l Hx _ IH]; [done|].
  by rewrite filter_cons, decide_False.
Qed.

Lemma filter_plays_without songs logs1 l logs2 :
  (∀ s, ¬ plays (s, l)) →
  filter plays (pairs songs (logs1 ++ l :: logs2))
  = filter plays (pairs songs (logs1 ++ logs2)).
Proof.
  intros Hl. rewrite !pairs_app_r, pairs_cons, !filter_app. f_equal.
  rewrite filter_nil_Forall; [done|].
  apply Forall_fmap, Forall_forall. intros s _. apply Hl.
Qed.

(** C10: an activity record without artist adds no row to the songplays
    table, whatever its page: with it or without it the table is the
    same. *)
Theorem songplays_null_artist (songs : list SongData.t)
    (logs1 logs2 : list LogData.t) (l : LogData.t) :
  LogData.artist l = None →
  (∀ s, ¬ artist_matches s l) ∧
  songplays_table tz (song_frame songs) (log_frame (logs1 ++ l :: logs2))
    |> collect
  = songplays_table tz (song_frame songs) (log_frame (logs1 ++ logs2))
    |> collect.
Proof.
  intros Hl.
  assert (∀ s, ¬ artist_matches s l) as Hm.
  { intros s [[a Ha] _]. congruence. }
  split; [done|].
  rewrite !songplays_table_collect, filter_plays_without; [done|].
  intros s [? _]. by eapply Hm.
Qed.

End songplays.

(** C1 fails as stated: two catalog records of one artist give two rows
    for a single play of that artist. *)
Lemma songplays_one_row_per_record_fails :
  ¬ ∀ tz songs logs, ∃ out,
      songplays_table tz (song_frame songs) (log_frame logs) |> collect
      = OK out ∧
      List.length out = List.length (filter (eligible songs) logs).
Proof.
  intros H. destruct (H utc two_songs_of_X one_play_of_X) as (out & Hout & Hlen).
  vm_compute in Hout. injection Hout as <-. vm_compute in Hlen. done.
Qed.

Lemma songplays_null_artist_witness :
  LogData.artist event_without_artist = None ∧
  songplays_table utc (song_frame two_songs_of_X)
    (log_frame ([] ++ event_without_artist :: one_play_of_X)) |> collect
  = songplays_table utc (song_frame two_songs_of_X)
      (log_frame ([] ++ one_play_of_X)) |> collect.
Proof.
  split; [reflexivity|].
  apply (songplays_null_artist utc two_songs_of_X [] one_play_of_X
           event_without_artist).
  reflexivity.
Defined.

(** ** Timestamps and the time table *)

Global Arguments Calendar.year : simpl never.
Global Arguments Calendar.month : simpl never.
Global Arguments Calendar.dayofmonth : simpl never.
Global Arguments Calendar.hour : simpl never.
Global Arguments Calendar.weekofyear : simpl never.
Global Arguments parse_timestamp : simpl never.
Global Arguments to_timestamp : simpl never.

Section time.
Context (tz : TimeZone).


Lemma datetime_local_Err (t : Z) (e : error) :
  datetime_local tz t = Err e → e = PythonException ValueError.
Proof. unfold datetime_local. case_bool_decide; [done|by intros [= <-]]. Qed.


Lemma fromtimestamp_millis_Err (ms : Z) (e : error) :
  fromtimestamp_millis tz ms = Err e → e = PythonException ValueError.
Proof.
  unfold fromtimestamp_millis.
  destruct (datetime_local tz (ms / 1000)) as [s|] eqn:Hs;
    [|by intros [= <-]; eapply datetime_local_Err].
  cbn [mbind result_bind].
  destruct (datetime_local tz (ms / 1000 - max_fold_seconds)) as [p|] eqn:Hp;
    [|by intros [= <-]; eapply datetime_local_Err].
  cbn [mbind result_bind].
  destruct (_ <? 0); cbn [mbind result_bind]; [|done].
  destruct (datetime_local tz (ms / 1000 + _)) eqn:Hq;
    cbn [mbind result_bind]; [done|].
  intros [= <-]. by eapply datetime_local_Err.
Qed.



Lemma parse_timestamp_Some_Err (ms : Z) (e : error) :
  parse_timestamp tz (Some ms) = Err e → e = PythonException ValueError.
Proof.
  unfold parse_timestamp.
  destruct (fromtimestamp_millis tz ms) eqn:Hd; [done|].
  intros [= <-]. by eapply fromtimestamp_millis_Err.
Qed.



(** The rows of the time table: the frame the six steps build. *)
Lemma time_table_frame (logs : list LogData.t) :
  ∃ g : LogData.t → row,
    time_table tz (log_frame logs)
    = OK {| columns := time_columns;
            hidden := (fst <$> schema_log_data) ++ ["start_time"];
            rows := g <$> logs |} ∧
    ∀ l, force (List.length time_columns) (g l) = time_projection tz l.
Proof.
  unfold time_table, log_frame.
  erewrite withColumn_fmap; [|reflexivity|reflexivity].
  cbn [mbind result_bind].
  erewrite (select_fmap _ [get 18]); [|reflexivity].
  cbn [mbind result_bind].
  do 5 (erewrite withColumn_fmap; [|reflexivity|reflexivity];
        cbn [mbind result_bind]).
  eexists. split; [reflexivity|].
  intros []. unfold time_projection. cbn.
  destruct ts as [ms|]; cbn; [|done].
  by destruct (parse_timestamp tz (Some ms)).
Qed.

Lemma time_table_collect (logs : list LogData.t) :
  time_table tz (log_frame logs) |> collect
  = traverse (time_projection tz) logs.
Proof.
  destruct (time_table_frame logs) as (g & -> & Hg).
  cbn [mbind result_bind]. unfold collect. cbn [columns rows].
  rewrite traverse_fmap. apply traverse_ext. intros l _. apply Hg.
Qed.

Lemma time_projection_OK (l : LogData.t) (r : list value) :
  time_projection tz l = OK r →
  ∃ us, field time_columns "start_time" r = VTimestamp us ∧
        field time_columns "year" r = VInt (in_zone Calendar.year tz us).
Proof.
  unfold time_projection.
  destruct (parse_timestamp tz (LogData.ts l)) as [d|]; [|done].
  intros [= <-]. by eexists.
Qed.

Lemma time_projection_is_OK (l : LogData.t) :
  is_OK (time_projection tz l) ↔ is_OK (parse_timestamp tz (LogData.ts l)).
Proof.
  unfold time_projection.
  destruct (parse_timestamp tz (LogData.ts l)); simpl.
  - split; intros _; by eexists.
  - split; by intros [? [=]].
Qed.

Lemma traverse_is_OK_inv {A B} (f : A → result B) l :
  is_OK (traverse f l) → Forall (λ x, is_OK (f x)) l.
Proof.
  intros [ys Hys]. apply traverse_OK_Forall2 in Hys.
  induction Hys; constructor; [by eexists|done].
Qed.

(** C7, as the code behaves.  The plan of the time table has the columns
    start_time, week, hour, day, month, year.  It yields a table exactly
    when the [ts] of every record parses; the table then has one row per
    input record, in which [year] is the calendar year of [start_time] in
    the session time zone.  Otherwise the job fails and there is no
    table. *)
Theorem time_table_one_row_per_record (logs : list LogData.t) :
  (∃ df, time_table tz (log_frame logs) = OK df ∧ columns df = time_columns) ∧
  (Forall (λ l, is_OK (parse_timestamp tz (LogData.ts l))) logs →
   ∃ out,
     time_table tz (log_frame logs) |> collect = OK out ∧
     List.length out = List.length logs ∧
     Forall2 (λ l r, time_projection tz l = OK r) logs out ∧
     ∀ r, r ∈ out →
       ∃ us, field time_columns "start_time" r = VTimestamp us ∧
             field time_columns "year" r = VInt (in_zone Calendar.year tz us)) ∧
  (is_OK (time_table tz (log_frame logs) |> collect) →
   Forall (λ l, is_OK (parse_timestamp tz (LogData.ts l))) logs).
Proof.
  split; [|split].
  - destruct (time_table_frame logs) as (g & -> & _). by eexists.
  - intros Hall. rewrite time_table_collect.
    destruct (traverse_is_OK (time_projection tz) logs) as [out Hout].
    { intros l Hl. rewrite Forall_forall in Hall.
      by apply time_projection_is_OK, Hall. }
    exists out. split; [done|].
    split; [by eapply traverse_OK_length|].
    apply traverse_OK_Forall2 in Hout. split; [done|].
    intros r Hr. apply list_elem_of_lookup_1 in Hr as [i Hi].
    destruct (Forall2_lookup_r _ _ _ _ _ Hout Hi) as (l & _ & Hl).
    by eapply time_projection_OK.
  - rewrite time_table_collect. intros H%traverse_is_OK_inv.
    eapply Forall_impl; [exact H|]. intros l. by rewrite time_projection_is_OK.
Qed.

End time.


(** C7 fails as stated, for every data set: a record without [ts] makes
    the job of the time table fail, so that there is no row at all. *)
Lemma time_table_null_ts_fails :
  ¬ ∀ tz logs, ∃ out,
      time_table tz (log_frame logs) |> collect = OK out ∧
      List.length out = List.length logs.
Proof.
  intros H. destruct (H utc [event_without_artist]) as (out & Hout & _).
  discriminate Hout.
Qed.

(** ** Zones of one offset *)

Lemma fixed_round_trips (offset t : Z) : round_trips (fixed offset) t.
Proof. unfold round_trips, localtime. cbn. lia. Qed.

Lemma parse_timestamp_fixed_OK_iff (offset : Z) (ts : option Z) :
  is_OK (parse_timestamp (fixed offset) ts) ↔
  ∃ ms, ts = Some ms ∧
        Calendar.datetime_min + 86400 ≤ ms / 1000 + offset
        ≤ Calendar.datetime_max.
Proof.
  unfold parse_timestamp, fromtimestamp_millis, datetime_local, localtime,
    max_fold_seconds.
  destruct ts as [ms|]; cbn [utcoffset fixed];
    [|split; [by intros [? [=]]|by intros (? & [=] & _)]].
  split.
  - intros [d Hd]. exists ms. split; [done|]. revert Hd.
    repeat case_bool_decide; cbn [mbind result_bind]; try done.
    intros _. lia.
  - intros (ms' & [= <-] & Hr).
    assert (Calendar.datetime_min ≤ Calendar.datetime_min + 86400) by lia.
    rewrite !bool_decide_true by lia. cbn [mbind result_bind].
    replace (_ <? 0) with false by (symmetry; apply Z.ltb_ge; lia).
    by eexists.
Qed.

(** ** What a run writes *)

Lemma write_parquet_overwrite {A} cols hid (g : A → row) (h : A → list value)
    l path partitionBy idx (fs : gmap string Parquet) :
  traverse (resolve cols []) partitionBy = OK idx →
  (∀ x, x ∈ l → force (List.length cols) (g x) = OK (h x)) →
  write_parquet {| columns := cols; hidden := hid; rows := g <$> l |}
    path Overwrite partitionBy fs
  = OK (<[path := {| pq_columns := cols; pq_partitionBy := partitionBy;
                     pq_rows := h <$> l |}]> fs).
Proof.
  intros Hp Hf. unfold write_parquet. cbn [columns]. rewrite Hp.
  cbn [mbind result_bind]. by rewrite (collect_fmap _ _ _ h).
Qed.

Section sink.
Context (tz : TimeZone) (self : SparkETL).

(** The two reads of the program. *)
Let song_data := read_song_json (spark self)
                   (src self +:+ "song_data/*/*/*/*.json").
Let log_data := read_log_json (spark self) (src self +:+ "log_data/*/*/*.json").

Lemma load_song_data_OK (songs : list SongData.t) :
  song_data = OK songs → load_song_data self = OK (song_frame songs).
Proof. unfold load_song_data. fold song_data. by intros ->. Qed.

Lemma load_log_data_OK (logs : list LogData.t) :
  log_data = OK logs → load_log_data self = OK (log_frame logs).
Proof. unfold load_log_data. fold log_data. by intros ->. Qed.

Lemma load_song_data_Err (e : error) :
  song_data = Err e → load_song_data self = Err e.
Proof. unfold load_song_data. fold song_data. by intros ->. Qed.

Lemma load_log_data_Err (e : error) :
  log_data = Err e → load_log_data self = Err e.
Proof. unfold load_log_data. fold log_data. by intros ->. Qed.

Lemma process_song_data_sink (songs : list SongData.t)
    (fs : gmap string Parquet) :
  song_data = OK songs →
  process_song_data self fs
  = OK (<[dst self +:+ "artists_table.parquet" :=
            {| pq_columns := artists_columns; pq_partitionBy := [];
               pq_rows := first_per_key id [] (artist_row <$> songs) |}]>
        (<[dst self +:+ "songs_table.parquet" :=
            {| pq_columns := songs_columns;
               pq_partitionBy := ["year"; "artist_id"];
               pq_rows :=
                 first_per_key (λ r, [field songs_columns "song_id" r]) []
                   (song_projection <$> songs) |}]> fs)).
Proof.
  intros Hsongs. unfold process_song_data.
  rewrite (load_song_data_OK songs Hsongs). cbn [mbind result_bind].
  rewrite songs_table_frame, artists_table_frame. cbn [mbind result_bind].
  erewrite (write_parquet_overwrite _ _ _ id); [|reflexivity|].
  2:{ intros r [(x & -> & _)%list_elem_of_fmap _]%first_per_key_elem.
      exact (force_ready (song_projection x) []). }
  cbn [mbind result_bind].
  erewrite (write_parquet_overwrite _ _ _ id); [|reflexivity|].
  2:{ intros r (x & -> & _)%first_per_key_id_elem%list_elem_of_fmap.
      exact (force_ready (artist_row x) []). }
  by rewrite !list_fmap_id.
Qed.

Lemma create_songplays_table_sink (songs : list SongData.t)
    (logs : list LogData.t) (fs : gmap string Parquet) :
  song_data = OK songs → log_data = OK logs →
  create_songplays_table tz self fs
  = OK (<[dst self +:+ "songplays.parquet" :=
            {| pq_columns := songplays_columns; pq_partitionBy := [];
               pq_rows := songplay_projection <$>
                            filter plays (pairs songs logs) |}]> fs).
Proof.
  intros Hsongs Hlogs. unfold create_songplays_table.
  rewrite (load_log_data_OK logs Hlogs), (load_song_data_OK songs Hsongs).
  cbn [mbind result_bind].
  rewrite songplays_table_frame. cbn [mbind result_bind].
  eapply write_parquet_overwrite; [reflexivity|]. intros p _.
  exact (force_ready (songplay_projection p) (joined_cells tz p)).
Qed.

(** The three steps of [main] write the five tables, the songs table
    alone partitioned; the run fails where a read fails or computing a
    table fails. *)
Lemma run_tables (fs : gmap string Parquet) :
  run tz self fs
  = (songs_out ← load_song_data self |> songs_table |> collect;
     artists_out ← load_song_data self |> artists_table |> collect;
     users_out ← load_log_data self |> users_table |> collect;
     time_out ← load_log_data self |> time_table tz |> collect;
     songplays_out ←
       (df_log_data ← load_log_data self;
        df_song_data ← load_song_data self;
        songplays_table tz df_song_data df_log_data)
       |> collect;
     OK (<[dst self +:+ "songplays.parquet" :=
             {| pq_columns := songplays_columns; pq_partitionBy := [];
                pq_rows := songplays_out |}]>
         (<[dst self +:+ "time_table.parquet" :=
             {| pq_columns := time_columns; pq_partitionBy := [];
                pq_rows := time_out |}]>
         (<[dst self +:+ "users_table.parquet" :=
             {| pq_columns := users_columns; pq_partitionBy := [];
                pq_rows := users_out |}]>
         (<[dst self +:+ "artists_table.parquet" :=
             {| pq_columns := artists_columns; pq_partitionBy := [];
                pq_rows := artists_out |}]>
         (<[dst self +:+ "songs_table.parquet" :=
             {| pq_columns := songs_columns;
                pq_partitionBy := ["year"; "artist_id"];
                pq_rows := songs_out |}]> fs)))))).
Proof.
  unfold run.
  destruct song_data as [songs|e] eqn:Hsongs.
  2:{ unfold process_song_data. by rewrite (load_song_data_Err e Hsongs). }
  rewrite (process_song_data_sink songs fs Hsongs).
  rewrite (load_song_data_OK songs Hsongs). cbn [mbind result_bind].
  rewrite songs_table_collect, artists_table_collect. cbn [mbind result_bind].
  unfold process_log_data.
  destruct log_data as [logs|e] eqn:Hlogs.
  2:{ by rewrite (load_log_data_Err e Hlogs). }
  rewrite (load_log_data_OK logs Hlogs). cbn [mbind result_bind].
  rewrite songplays_table_collect.
  pose proof (time_table_collect tz logs) as Htime.
  destruct (users_table_frame logs) as (sorted & _ & _ & ->).
  destruct (time_table_frame tz logs) as (g & Hdf & _).
  rewrite Hdf in Htime |- *. cbn [mbind result_bind] in Htime |- *.
  erewrite (write_parquet_overwrite users_columns _ _ user_projection);
    [|reflexivity|].
  2:{ intros x _. exact (force_ready (user_projection x) (log_row x)). }
  erewrite (collect_fmap users_columns _ _ user_projection).
  2:{ intros x _. exact (force_ready (user_projection x) (log_row x)). }
  cbn [mbind result_bind].
  unfold write_parquet at 1. cbn [traverse mbind result_bind columns].
  rewrite Htime.
  destruct (traverse (time_projection tz) logs) as [time|]; [|done].
  cbn [mbind result_bind].
  apply (create_songplays_table_sink songs logs _ Hsongs Hlogs).
Qed.

(** A run that succeeds has read both data sets. *)
Lemma run_OK_reads (fs fs' : gmap string Parquet) :
  run tz self fs = OK fs' →
  ∃ songs logs, song_data = OK songs ∧ log_data = OK logs.
Proof.
  rewrite run_tables. unfold load_song_data, load_log_data.
  fold song_data log_data.
  destruct song_data as [songs|]; [|done].
  destruct log_data as [logs|]; [by eauto|].
  cbn [fmap result_fmap mbind result_bind].
  destruct (songs_table _ ≫= collect); [|done].
  by destruct (artists_table _ ≫= collect).
Qed.

End sink.

(** ** The written songplays table *)


(** ** Null timestamps *)

Lemma time_projection_TypeError (tz : TimeZone) (l : LogData.t) :
  time_projection tz l = Err (PythonException TypeError) ↔ LogData.ts l = None.
Proof.
  unfold time_projection.
  destruct (LogData.ts l) as [ms|]; [|done].
  destruct (parse_timestamp tz (Some ms)) as [d|e] eqn:Hd; [done|].
  apply parse_timestamp_Some_Err in Hd as ->. done.
Qed.

(** C9, as the code behaves: the UDF raises [TypeError] on null and on
    nothing else; a log with a null [ts] fails the time table, a log
    without one cannot fail it with that error; the songplays table never
    evaluates [start_time] and is produced whatever the [ts]. *)
Theorem parse_timestamp_null (tz : TimeZone) :
  parse_timestamp tz None = Err (PythonException TypeError) ∧
  (∀ ms, parse_timestamp tz (Some ms) ≠ Err (PythonException TypeError)) ∧
  (∀ logs l, l ∈ logs → LogData.ts l = None →
     is_Err (time_table tz (log_frame logs) |> collect)) ∧
  (∀ logs, Forall (λ l, LogData.ts l ≠ None) logs →
     time_table tz (log_frame logs) |> collect
     ≠ Err (PythonException TypeError)) ∧
  (∀ songs logs,
     is_OK (songplays_table tz (song_frame songs) (log_frame logs) |> collect)).
Proof.
  split; [done|]. split.
  { intros ms H%parse_timestamp_Some_Err. discriminate H. }
  split.
  { intros logs l Hl Hts. rewrite time_table_collect.
    eapply traverse_elem_Err; [done|]. by apply time_projection_TypeError. }
  split.
  { intros logs Hall. rewrite time_table_collect.
    intros (l & Hl & Herr%time_projection_TypeError)%traverse_Err.
    rewrite Forall_forall in Hall. by apply (Hall l). }
  intros songs logs. rewrite songplays_table_collect. by eexists.
Qed.

(** C9 fails as stated: the songplays table is produced for a log whose
    only record has a null [ts]. *)
Lemma songplays_null_ts_does_not_fail :
  ¬ ∀ tz songs logs l, l ∈ logs → LogData.ts l = None →
      is_Err (songplays_table tz (song_frame songs) (log_frame logs) |> collect).
Proof.
  intros H.
  destruct (H utc two_songs_of_X [event_without_artist] event_without_artist)
    as [e He]; [by left|done|].
  vm_compute in He. done.
Qed.

(** ** Two runs on one input *)



Section first_per_key_runs.
Context {A K : Type} `{EqDecision K} (key : A → K).




End first_per_key_runs.

Lemma string_value_inj a b : string_value a = string_value b → a = b.
Proof. destruct a, b; simpl; congruence. Qed.



(** The same for the order of the users table: two events of one user and
    one [ts] come out in the order in which they went in. *)
Example rerun_users_table_order_differs :
  let free := example_event None "Home" "U1" "free" (Some 1000) in
  let paid := example_event None "Home" "U1" "paid" (Some 1000) in
  users_table (log_frame [free; paid]) |> collect
  = OK [user_projection free; user_projection paid] ∧
  users_table (log_frame [paid; free]) |> collect
  = OK [user_projection paid; user_projection free].
Proof. split; reflexivity. Qed.

(** ** The scenario of the specification *)

(** One catalog record and two activity records, the second without
    artist: one song, one artist, two users rows with the later event
    first, two time rows, one songplay. *)
Example end_to_end_scenario :
  let catalog := [example_song "S1" "T" "A1" "X"] in
  songs_table (song_frame catalog) |> collect
  = OK [[VString "S1"; VString "T"; VString "A1"; VLong 2000; VNull]] ∧
  artists_table (song_frame catalog) |> collect
  = OK [[VString "A1"; VString "X"; VNull; VNull; VNull]] ∧
  users_table (log_frame two_events) |> collect
  = OK [[VString "U1"; VNull; VNull; VNull; VString "free"; VLong 2000];
        [VString "U1"; VNull; VNull; VNull; VString "free"; VLong 1000]] ∧
  time_table utc (log_frame two_events) |> collect
  = OK [[VTimestamp 1000000; VInt 1; VInt 0; VInt 1; VInt 1; VInt 1970];
        [VTimestamp 2000000; VInt 1; VInt 0; VInt 1; VInt 1; VInt 1970]] ∧
  songplays_table utc (song_frame catalog) (log_frame two_events) |> collect
  = OK [[VString "U1"; VString "free"; VString "S1"; VString "A1"; VLong 1;
         VNull; VNull]].
Proof. repeat split; vm_compute; reflexivity. Qed.

(** ** Instances *)

Lemma artists_table_distinct_rows_witness :
  let x := example_song "S1" "T1" "A1" "X" in
  let y := example_song "S2" "T2" "A1" "Y" in
  SongData.artist_id x = SongData.artist_id y ∧
  artist_row x ≠ artist_row y ∧
  ∃ out,
    artists_table (song_frame two_names_of_A1) |> collect = OK out ∧
    artist_row x ∈ out ∧ artist_row y ∈ out.
Proof.
  intros x y. split; [reflexivity|]. split; [discriminate|].
  destruct (artists_table_distinct_rows two_names_of_A1)
    as (out & Hout & _ & _ & _ & Hboth).
  exists out. split; [exact Hout|].
  destruct (Hboth x y) as (Hx & Hy & _).
  - apply list_elem_of_here.
  - apply list_elem_of_further, list_elem_of_here.
  - reflexivity.
  - discriminate.
  - split; [exact Hx|exact Hy].
Defined.



Lemma time_table_one_row_per_record_witness :
  Forall (λ l, is_OK (parse_timestamp utc (LogData.ts l))) two_events ∧
  ∃ out,
    time_table utc (log_frame two_events) |> collect = OK out ∧
    List.length out = 2%nat.
Proof.
  assert (Forall (λ l, is_OK (parse_timestamp utc (LogData.ts l))) two_events)
    as Hall.
  { repeat constructor; eexists; vm_compute; reflexivity. }
  split; [exact Hall|].
  destruct (time_table_one_row_per_record utc two_events) as (_ & Hrows & _).
  destruct (Hrows Hall) as (out & Hout & Hlen & _).
  exists out. split; [exact Hout|exact Hlen].
Defined.

Lemma parse_timestamp_null_witness :
  LogData.ts event_without_artist = None ∧
  is_Err (time_table utc (log_frame [event_without_artist]) |> collect).
Proof.
  split; [reflexivity|].
  destruct (parse_timestamp_null utc) as (_ & _ & Hfail & _).
  apply (Hfail [event_without_artist] event_without_artist).
  - apply list_elem_of_here.
  - reflexivity.
Defined.


(** * Further properties *)

(** ** The catalog tables, completeness *)

Lemma first_per_key_length {A K} `{EqDecision K} (key : A → K) seen l :
  (List.length (first_per_key key seen l) ≤ List.length l)%nat.
Proof.
  revert seen. induction l as [|x l IH]; intros seen; simpl; [done|].
  destruct (decide (key x ∈ seen)).
  - specialize (IH seen). lia.
  - specialize (IH (key x :: seen)). simpl. lia.
Qed.

Lemma first_per_key_nil_inv {A K} `{EqDecision K} (key : A → K) l :
  first_per_key key [] l = [] → l = [].
Proof.
  destruct l as [|x l]; [done|]. simpl.
  destruct (decide (key x ∈ [])) as [Hin|_]; [by apply elem_of_nil in Hin|done].
Qed.

Lemma NoDup_fmap_inj_on {A B} (f : A → B) l x y :
  NoDup (f <$> l) → x ∈ l → y ∈ l → f x = f y → x = y.
Proof.
  induction l as [|z l IH]; [by inversion 2|].
  rewrite fmap_cons, NoDup_cons. intros [Hz Hl].
  intros [->|Hx]%elem_of_cons [->|Hy]%elem_of_cons Heq; [done| | |by apply IH].
  - destruct Hz. rewrite Heq. by apply list_elem_of_fmap_2.
  - destruct Hz. rewrite <- Heq. by apply list_elem_of_fmap_2.
Qed.

(** X1: every song_id of the catalog, null included, has exactly one row
    in the songs table; the table is no longer than the catalog and empty
    only for an empty catalog. *)
Theorem songs_table_one_row_per_song_id (records : list SongData.t) :
  ∃ out,
    songs_table (song_frame records) |> collect = OK out ∧
    (∀ x, x ∈ records →
       ∃ r, r ∈ out ∧
            field songs_columns "song_id" r
            = string_value (SongData.song_id x) ∧
            ∀ r', r' ∈ out →
              field songs_columns "song_id" r'
              = string_value (SongData.song_id x) → r' = r) ∧
    (List.length out ≤ List.length records)%nat ∧
    (out = [] ↔ records = []).
Proof.
  rewrite songs_table_collect.
  set (key := λ r, [field songs_columns "song_id" r]).
  eexists. split; [done|]. split; [|split].
  - intros x Hx.
    destruct (first_per_key_complete key [] (song_projection <$> records)
                (song_projection x)) as (r & Hr & Hk);
      [by apply list_elem_of_fmap_2|by inversion 1|].
    injection Hk as Hk. exists r. split; [done|]. split; [done|].
    intros r' Hr' Hk'.
    eapply (NoDup_fmap_inj_on key); [apply first_per_key_NoDup|done..|].
    unfold key. by rewrite Hk, Hk'.
  - etransitivity; [apply first_per_key_length|]. by rewrite length_fmap.
  - split.
    + intros H%first_per_key_nil_inv. by apply fmap_nil_inv in H.
    + by intros ->.
Qed.

(** X2: the rows of the artists table are exactly the projections
    (artist_id, name, location, latitude, longitude) of the catalog
    records with a negative zero latitude or longitude replaced by the
    positive one, each once. *)
Theorem artists_table_rows (records : list SongData.t) :
  ∃ out,
    artists_table (song_frame records) |> collect = OK out ∧
    NoDup out ∧
    (∀ r, r ∈ out ↔ ∃ x, x ∈ records ∧ r = artist_row x) ∧
    (List.length out ≤ List.length records)%nat ∧
    (out = [] ↔ records = []).
Proof.
  rewrite artists_table_collect. eexists. split; [done|].
  split; [apply first_per_key_id_NoDup|]. split; [|split].
  - intros r. rewrite first_per_key_id_elem, list_elem_of_fmap.
    split; intros (x & ? & ?); by exists x.
  - etransitivity; [apply first_per_key_length|]. by rewrite length_fmap.
  - split.
    + intros H%first_per_key_nil_inv. by apply fmap_nil_inv in H.
    + by intros ->.
Qed.

(** ** The songplays table, composition *)

Section songplays_composition.
Context (tz : TimeZone).

Local Abbreviation songplays songs logs :=
  (songplays_table tz (song_frame songs) (log_frame logs) |> collect).

Lemma pairs_app_l {A B} (l1 l2 : list A) (k : list B) :
  pairs (l1 ++ l2) k ≡ₚ pairs l1 k ++ pairs l2 k.
Proof.
  induction k as [|y k IH]; [done|].
  rewrite !pairs_cons, IH, reverse_app, fmap_app.
  rewrite (Permutation_app_comm (_ <$> reverse l2)).
  rewrite <- !(assoc_L (++)). f_equiv. apply Permutation_app_swap_app.
Qed.

Lemma pairs_nil_l {A B} (k : list B) : pairs (@nil A) k = [].
Proof. induction k as [|y k IH]; [done|]. by rewrite pairs_cons, IH. Qed.

(** X3: the songplays table of a catalog in two parts holds the rows of
    the tables of the two parts, each as often as there, and so does the
    table of a log in two parts; without catalog or without log it is
    empty. *)
Theorem songplays_additive (songs1 songs2 songs : list SongData.t)
    (logs1 logs2 logs : list LogData.t) :
  (∃ a b c,
     songplays songs1 logs = OK a ∧ songplays songs2 logs = OK b ∧
     songplays (songs1 ++ songs2) logs = OK c ∧ c ≡ₚ a ++ b) ∧
  (∃ a b c,
     songplays songs logs1 = OK a ∧ songplays songs logs2 = OK b ∧
     songplays songs (logs1 ++ logs2) = OK c ∧ c ≡ₚ a ++ b) ∧
  songplays [] logs = OK [] ∧
  songplays songs [] = OK [].
Proof.
  rewrite !songplays_table_collect. split; [|split; [|split]].
  - eexists _, _, _. split; [done|]. split; [done|]. split; [done|].
    by rewrite pairs_app_l, filter_app, fmap_app.
  - eexists _, _, _. split; [done|]. split; [done|]. split; [done|].
    by rewrite pairs_app_r, filter_app, fmap_app.
  - by rewrite pairs_nil_l.
  - done.
Qed.

Lemma filter_fmap_pair {A B} (P : A * B → Prop) `{∀ p, Decision (P p)}
    (y : B) (l : list A) :
  filter P ((λ x, (x, y)) <$> l) = (λ x, (x, y)) <$> filter (λ x, P (x, y)) l.
Proof.
  induction l as [|x l IH]; [done|].
  rewrite fmap_cons, !filter_cons, IH. by destruct (decide (P (x, y))).
Qed.

Lemma length_filter_pairs {A B} (P : A * B → Prop) `{∀ p, Decision (P p)}
    (l : list A) (k : list B) :
  List.length (filter P (pairs l k))
  = sum_list ((λ y, List.length (filter (λ x, P (x, y)) l)) <$> k).
Proof.
  induction k as [|y k IH]; [done|].
  rewrite pairs_cons, filter_app, length_app, IH, fmap_cons. simpl sum_list.
  f_equal. by rewrite filter_fmap_pair, length_fmap, filter_reverse,
    length_reverse.
Qed.

(** X4: an activity record whose page is "NextSong" has one row in the
    songplays table for every catalog record of its artist, any other
    record none: the table has as many rows as these counts add up to. *)
Theorem songplays_row_count (songs : list SongData.t) (logs : list LogData.t) :
  ∃ out,
    songplays songs logs = OK out ∧
    List.length out
    = sum_list ((λ l, if decide (is_next_song l)
                      then List.length (filter (λ s, artist_matches s l) songs)
                      else 0%nat) <$> logs).
Proof.
  rewrite songplays_table_collect. eexists. split; [done|].
  rewrite length_fmap, length_filter_pairs. f_equal.
  apply list_fmap_ext. intros _ l _. unfold plays. simpl.
  destruct (decide (is_next_song l)) as [Hp|Hp].
  - f_equal. apply list_filter_iff. tauto.
  - induction songs as [|s songs' IH]; [done|].
    rewrite filter_cons, decide_False by tauto. done.
Qed.

Lemma filter_plays_without_song songs1 s songs2 logs :
  (∀ l, l ∈ logs → ¬ plays (s, l)) →
  filter plays (pairs (songs1 ++ s :: songs2) logs)
  = filter plays (pairs (songs1 ++ songs2) logs).
Proof.
  intros Hs. induction logs as [|l logs' IH]; [done|].
  rewrite !pairs_cons, !filter_app, IH by (intros; apply Hs; by right).
  f_equal. rewrite !reverse_app, reverse_cons, !fmap_app, !filter_app.
  f_equal.
  assert (filter plays ((λ x, (x, l)) <$> [s]) = []) as ->; [|apply app_nil_r].
  rewrite fmap_cons, filter_cons, decide_False by (apply Hs; left). done.
Qed.

(** X5: a catalog record whose artist_name is null, or equal to the
    artist of no activity record, adds no row to the songplays table. *)
Theorem songplays_unmatched_song (songs1 songs2 : list SongData.t)
    (s : SongData.t) (logs : list LogData.t) :
  (SongData.artist_name s = None ∨
   ∀ l, l ∈ logs → LogData.artist l ≠ SongData.artist_name s) →
  songplays (songs1 ++ s :: songs2) logs = songplays (songs1 ++ songs2) logs.
Proof.
  intros Hs. rewrite !songplays_table_collect, filter_plays_without_song; [done|].
  intros l Hl [[[a Ha] Heq] _]. simpl in *. destruct Hs as [Hs|Hs].
  - congruence.
  - by apply (Hs l).
Qed.

End songplays_composition.

Lemma songplays_unmatched_song_witness :
  (SongData.artist_name (example_song "S3" "T3" "A2" "Y") = None ∨
   ∀ l, l ∈ one_play_of_X →
     LogData.artist l ≠ SongData.artist_name (example_song "S3" "T3" "A2" "Y")) ∧
  songplays_table utc
    (song_frame (two_songs_of_X ++ example_song "S3" "T3" "A2" "Y" :: []))
    (log_frame one_play_of_X) |> collect
  = songplays_table utc (song_frame (two_songs_of_X ++ []))
      (log_frame one_play_of_X) |> collect.
Proof.
  assert (∀ l, l ∈ one_play_of_X →
            LogData.artist l
            ≠ SongData.artist_name (example_song "S3" "T3" "A2" "Y")) as H.
  { intros l Hl. apply list_elem_of_singleton in Hl. subst l. discriminate. }
  split; [right; exact H|].
  apply (songplays_unmatched_song utc two_songs_of_X []
           (example_song "S3" "T3" "A2" "Y") one_play_of_X).
  right. exact H.
Defined.

(** ** The time table, failure and contents *)

Lemma traverse_first_Err {A B} (f : A → result B) l e :
  traverse f l = Err e →
  ∃ l1 x l2, l = l1 ++ x :: l2 ∧ Forall (λ y, is_OK (f y)) l1 ∧ f x = Err e.
Proof.
  induction l as [|x l IH]; simpl; [done|].
  destruct (f x) as [y|e'] eqn:Hx; simpl.
  - destruct (traverse f l) as [ys|e'']; simpl; [done|]. intros [= ->].
    destruct IH as (l1 & x' & l2 & -> & Hl1 & Hx'); [done|].
    exists (x :: l1), x', l2. split; [done|]. split; [|done].
    constructor; [by eexists|done].
  - intros [= ->]. exists [], x, l. by split.
Qed.

Lemma time_projection_Err (tz : TimeZone) (l : LogData.t) (e : error) :
  time_projection tz l = Err e ↔ parse_timestamp tz (LogData.ts l) = Err e.
Proof.
  unfold time_projection.
  destruct (parse_timestamp tz (LogData.ts l)); simpl; [done|].
  split; by intros [= ->].
Qed.

(** X6: the time table is produced exactly when the [ts] of every record
    parses, which in a zone of one offset means that it is present and
    that its local time is between the start of the second day of year 1
    and the end of year 9999.  Otherwise the job fails with the exception
    the UDF raises on the first record, in the order of delivery, whose
    [ts] does not parse: [TypeError] for a null, [ValueError] for an
    instant out of range.  The plan itself is never rejected. *)
Theorem time_table_succeeds_iff (tz : TimeZone) (logs : list LogData.t) :
  (is_OK (time_table tz (log_frame logs) |> collect) ↔
   Forall (λ l, is_OK (parse_timestamp tz (LogData.ts l))) logs) ∧
  (∀ e, time_table tz (log_frame logs) |> collect = Err e →
     ∃ logs1 l logs2,
       logs = logs1 ++ l :: logs2 ∧
       Forall (λ l', is_OK (parse_timestamp tz (LogData.ts l'))) logs1 ∧
       parse_timestamp tz (LogData.ts l) = Err e ∧
       e = PythonException
             (match LogData.ts l with
              | None => TypeError
              | Some _ => ValueError
              end)) ∧
  ∀ offset ts,
    is_OK (parse_timestamp (fixed offset) ts) ↔
    ∃ ms, ts = Some ms ∧
          Calendar.datetime_min + 86400 ≤ ms / 1000 + offset
          ≤ Calendar.datetime_max.
Proof.
  rewrite time_table_collect. split; [|split].
  - split.
    + intros H%traverse_is_OK_inv. eapply Forall_impl; [exact H|].
      intros l. by rewrite time_projection_is_OK.
    + intros H. apply traverse_is_OK. intros l Hl.
      rewrite Forall_forall in H. by apply time_projection_is_OK, H.
  - intros e (logs1 & l & logs2 & -> & H1 & Hl)%traverse_first_Err.
    exists logs1, l, logs2. split; [done|]. split.
    { eapply Forall_impl; [exact H1|]. intros l'.
      by rewrite time_projection_is_OK. }
    apply time_projection_Err in Hl. split; [done|].
    destruct (LogData.ts l) as [ms|]; [|by injection Hl as <-].
    by apply parse_timestamp_Some_Err in Hl.
  - apply parse_timestamp_fixed_OK_iff.
Qed.




(** ** The users table, groups *)

Lemma StronglySorted_lookup {A} (R : relation A) l i j x y :
  StronglySorted R l → (i < j)%nat →
  l !! i = Some x → l !! j = Some y → R x y.
Proof.
  intros Hs. revert i j. induction Hs as [|z l _ IH Hz]; intros i j Hij; [done|].
  destruct j as [|j]; [lia|]. destruct i as [|i]; simpl.
  - intros [= ->] Hy. rewrite Forall_forall in Hz. apply Hz.
    by eapply list_elem_of_lookup_2.
  - apply IH. lia.
Qed.

(** X8: in the users table the rows of one user_id are contiguous, and
    any earlier one of them has a [ts] greater than or equal to that of any
    later one (nulls last): the first row of a user is a latest event. *)
Theorem users_table_groups (records : list LogData.t) :
  ∃ out,
    users_table (log_frame records) |> collect = OK out ∧
    (∀ i j r1 r2, (i < j)%nat → out !! i = Some r1 → out !! j = Some r2 →
       field users_columns "user_id" r1 = field users_columns "user_id" r2 →
       long_value_ge (field users_columns "ts" r1)
                     (field users_columns "ts" r2)) ∧
    (∀ i j k r1 r2 r3, (i < j < k)%nat →
       out !! i = Some r1 → out !! j = Some r2 → out !! k = Some r3 →
       field users_columns "user_id" r1 = field users_columns "user_id" r3 →
       field users_columns "user_id" r2 = field users_columns "user_id" r1).
Proof.
  destruct (users_table_frame records) as (sorted & _ & Hsorted & ->).
  apply (Sorted_StronglySorted users_order) in Hsorted.
  exists (user_projection <$> sorted). cbn [mbind result_bind].
  split.
  { apply collect_fmap. intros x _.
    exact (force_ready (user_projection x) (log_row x)). }
  assert (∀ a b, field users_columns "user_id" (user_projection a)
                 = field users_columns "user_id" (user_projection b) ↔
                 LogData.userId a = LogData.userId b) as Hid.
  { intros a b.
    change (string_value (LogData.userId a) = string_value (LogData.userId b)
            ↔ LogData.userId a = LogData.userId b).
    split; [apply string_value_inj|by intros ->]. }
  split.
  - intros i j r1 r2 Hij. rewrite !list_lookup_fmap.
    destruct (sorted !! i) as [a|] eqn:Ha; [|done].
    destruct (sorted !! j) as [b|] eqn:Hb; [|done].
    intros [= <-] [= <-] Heq%Hid.
    destruct (StronglySorted_lookup _ _ _ _ _ _ Hsorted Hij Ha Hb) as [_ Hts].
    specialize (Hts Heq).
    change (long_value_ge (long_value (LogData.ts a)) (long_value (LogData.ts b))).
    by destruct (LogData.ts a), (LogData.ts b).
  - intros i j k r1 r2 r3 [Hij Hjk]. rewrite !list_lookup_fmap.
    destruct (sorted !! i) as [a|] eqn:Ha; [|done].
    destruct (sorted !! j) as [b|] eqn:Hb; [|done].
    destruct (sorted !! k) as [c|] eqn:Hc; [|done].
    intros [= <-] [= <-] [= <-] Heq%Hid. apply Hid.
    destruct (StronglySorted_lookup _ _ _ _ _ _ Hsorted Hij Ha Hb) as [Hab _].
    destruct (StronglySorted_lookup _ _ _ _ _ _ Hsorted Hjk Hb Hc) as [Hbc _].
    rewrite <- Heq in Hbc. by apply user_id_le_antisym.
Qed.

(** ** The sink after a run *)

Lemma append_inj_l (s a b : string) : s +:+ a = s +:+ b → a = b.
Proof. induction s as [|c s IH]; simpl; [done|]. intros [= H]. by apply IH. Qed.

Lemma users_table_collect (records : list LogData.t) :
  ∃ sorted,
    sorted ≡ₚ records ∧
    users_table (log_frame records) |> collect = OK (user_projection <$> sorted).
Proof.
  destruct (users_table_frame records) as (sorted & Hperm & _ & ->).
  exists sorted. split; [done|]. cbn [mbind result_bind].
  apply collect_fmap. intros x _.
  exact (force_ready (user_projection x) (log_row x)).
Qed.

Ltac other_path :=
  rewrite lookup_insert_ne by (intros ?%append_inj_l; discriminate).

Section run.
Context (tz : TimeZone) (self : SparkETL).

Let song_data := read_song_json (spark self)
                   (src self +:+ "song_data/*/*/*/*.json").
Let log_data := read_log_json (spark self) (src self +:+ "log_data/*/*/*.json").

Lemma not_table_path (path name : string) :
  path ∉ table_paths self → dst self +:+ name ∈ table_paths self →
  dst self +:+ name ≠ path.
Proof. intros Hp Hn Heq. apply Hp. by rewrite <- Heq. Qed.


Lemma run_explicit (songs : list SongData.t) (logs : list LogData.t)
    (fs : gmap string Parquet) :
  song_data = OK songs → log_data = OK logs →
  ∃ sorted,
    sorted ≡ₚ logs ∧
    users_table (log_frame logs) |> collect
    = OK (user_projection <$> sorted) ∧
    run tz self fs
    = (time ← traverse (time_projection tz) logs;
       OK (<[dst self +:+ "songplays.parquet" :=
               {| pq_columns := songplays_columns; pq_partitionBy := [];
                  pq_rows := songplay_projection <$>
                               filter plays (pairs songs logs) |}]>
           (<[dst self +:+ "time_table.parquet" :=
               {| pq_columns := time_columns; pq_partitionBy := [];
                  pq_rows := time |}]>
           (<[dst self +:+ "users_table.parquet" :=
               {| pq_columns := users_columns; pq_partitionBy := [];
                  pq_rows := user_projection <$> sorted |}]>
           (<[dst self +:+ "artists_table.parquet" :=
               {| pq_columns := artists_columns; pq_partitionBy := [];
                  pq_rows := first_per_key id [] (artist_row <$> songs) |}]>
           (<[dst self +:+ "songs_table.parquet" :=
               {| pq_columns := songs_columns;
                  pq_partitionBy := ["year"; "artist_id"];
                  pq_rows :=
                    first_per_key (λ r, [field songs_columns "song_id" r]) []
                      (song_projection <$> songs) |}]> fs)))))).
Proof.
  intros Hsongs Hlogs. rewrite run_tables.
  rewrite (load_song_data_OK self songs Hsongs),
    (load_log_data_OK self logs Hlogs).
  cbn [mbind result_bind].
  destruct (users_table_collect logs) as (sorted & Hperm & Husers).
  exists sorted. split; [done|]. split; [done|].
  rewrite songs_table_collect, artists_table_collect, Husers,
    time_table_collect, songplays_table_collect.
  reflexivity.
Qed.

Ltac in_table_paths :=
  unfold table_paths; rewrite !elem_of_cons; tauto.

(** X10: after a successful run each of the five paths holds its table,
    the songs table partitioned by year and artist_id and the others
    unpartitioned, and every other path of the sink is as before.  In
    particular no table overwrites another. *)
Theorem run_writes_five_tables (fs fs' : gmap string Parquet) :
  run tz self fs = OK fs' →
  ∃ songs_out artists_out users_out time_out songplays_out,
    load_song_data self |> songs_table |> collect = OK songs_out ∧
    load_song_data self |> artists_table |> collect = OK artists_out ∧
    load_log_data self |> users_table |> collect = OK users_out ∧
    load_log_data self |> time_table tz |> collect = OK time_out ∧
    (df_log_data ← load_log_data self;
     df_song_data ← load_song_data self;
     songplays_table tz df_song_data df_log_data) |> collect
    = OK songplays_out ∧
    fs' !! (dst self +:+ "songs_table.parquet")
    = Some {| pq_columns := songs_columns;
              pq_partitionBy := ["year"; "artist_id"];
              pq_rows := songs_out |} ∧
    fs' !! (dst self +:+ "artists_table.parquet")
    = Some {| pq_columns := artists_columns; pq_partitionBy := [];
              pq_rows := artists_out |} ∧
    fs' !! (dst self +:+ "users_table.parquet")
    = Some {| pq_columns := users_columns; pq_partitionBy := [];
              pq_rows := users_out |} ∧
    fs' !! (dst self +:+ "time_table.parquet")
    = Some {| pq_columns := time_columns; pq_partitionBy := [];
              pq_rows := time_out |} ∧
    fs' !! (dst self +:+ "songplays.parquet")
    = Some {| pq_columns := songplays_columns; pq_partitionBy := [];
              pq_rows := songplays_out |} ∧
    ∀ path, path ∉ table_paths self → fs' !! path = fs !! path.
Proof.
  rewrite run_tables.
  destruct (load_song_data self |> songs_table |> collect) as [so|]; [|done].
  destruct (load_song_data self |> artists_table |> collect) as [ao|];
    [|done].
  destruct (load_log_data self |> users_table |> collect) as [uo|]; [|done].
  destruct (load_log_data self |> time_table tz |> collect) as [to|]; [|done].
  destruct ((df_log_data ← load_log_data self;
             df_song_data ← load_song_data self;
             songplays_table tz df_song_data df_log_data) |> collect)
    as [po|]; [|done].
  cbn [mbind result_bind]. intros [= <-].
  exists so, ao, uo, to, po. repeat (split; [done|]).
  repeat split.
  - repeat other_path. apply lookup_insert_eq.
  - repeat other_path. apply lookup_insert_eq.
  - repeat other_path. apply lookup_insert_eq.
  - repeat other_path. apply lookup_insert_eq.
  - apply lookup_insert_eq.
  - intros path Hpath.
    rewrite !lookup_insert_ne; [done|apply not_table_path; [done|in_table_paths]..].
Qed.


(** X12: every table a successful run leaves at one of its five paths has
    one value per column in every row, and partition columns that are
    columns of the table. *)
Theorem run_well_formed (fs fs' : gmap string Parquet) :
  run tz self fs = OK fs' →
  ∀ path, path ∈ table_paths self →
    ∃ t, fs' !! path = Some t ∧ well_formed t.
Proof.
  intros Hrun.
  destruct (run_OK_reads tz self fs fs' Hrun) as (songs & logs & Hs & Hl).
  revert Hrun.
  destruct (run_explicit songs logs fs Hs Hl) as (sorted & _ & _ & ->).
  destruct (traverse (time_projection tz) logs) as [time|] eqn:Htime; [|done].
  cbn [mbind result_bind]. intros [= <-] path.
  unfold table_paths. rewrite !elem_of_cons, elem_of_nil.
  intros [->|[->|[->|[->|[->|[]]]]]].
  - repeat other_path. rewrite lookup_insert_eq. eexists. split; [done|].
    split.
    + apply Forall_forall.
      by intros r [(x & -> & _)%list_elem_of_fmap _]%first_per_key_elem.
    + intros c. cbn. unfold songs_columns. rewrite !elem_of_cons. tauto.
  - repeat other_path. rewrite lookup_insert_eq. eexists. split; [done|].
    split; [|by intros c Hc%elem_of_nil]. apply Forall_forall.
    by intros r (x & -> & _)%first_per_key_id_elem%list_elem_of_fmap.
  - repeat other_path. rewrite lookup_insert_eq. eexists. split; [done|].
    split; [|by intros c Hc%elem_of_nil]. apply Forall_forall.
    by intros r (x & -> & _)%list_elem_of_fmap.
  - repeat other_path. rewrite lookup_insert_eq. eexists. split; [done|].
    split; [|by intros c Hc%elem_of_nil]. apply Forall_forall. intros r Hr.
    apply traverse_OK_Forall2 in Htime.
    apply list_elem_of_lookup_1 in Hr as [i Hi].
    destruct (Forall2_lookup_r _ _ _ _ _ Htime Hi) as (l & _ & Hl').
    revert Hl'. unfold time_projection.
    destruct (parse_timestamp tz (LogData.ts l)); [|done].
    by intros [= <-].
  - rewrite lookup_insert_eq. eexists. split; [done|].
    split; [|by intros c Hc%elem_of_nil]. apply Forall_forall.
    by intros r (x & -> & _)%list_elem_of_fmap.
Qed.

End run.

Lemma example_run_succeeds : is_OK (run utc example_etl ∅).
Proof.
  destruct (run_explicit utc example_etl two_names_of_A1 two_events ∅
              eq_refl eq_refl) as (sorted & _ & _ & ->).
  by eexists.
Defined.

Lemma run_writes_five_tables_witness :
  ∃ fs' songs_out,
    run utc example_etl ∅ = OK fs' ∧
    load_song_data example_etl |> songs_table |> collect = OK songs_out ∧
    fs' !! (dst example_etl +:+ "songs_table.parquet")
    = Some {| pq_columns := songs_columns;
              pq_partitionBy := ["year"; "artist_id"];
              pq_rows := songs_out |}.
Proof.
  destruct example_run_succeeds as [fs' Hrun].
  destruct (run_writes_five_tables utc example_etl ∅ fs' Hrun)
    as (so & ao & uo & to & po & Hs & _ & _ & _ & _ & Hl & _).
  exists fs', so. split; [exact Hrun|]. split; [exact Hs|exact Hl].
Defined.


Lemma run_well_formed_witness :
  ∃ fs' t,
    run utc example_etl ∅ = OK fs' ∧
    dst example_etl +:+ "time_table.parquet" ∈ table_paths example_etl ∧
    fs' !! (dst example_etl +:+ "time_table.parquet") = Some t ∧
    well_formed t.
Proof.
  destruct example_run_succeeds as [fs' Hrun].
  assert (dst example_etl +:+ "time_table.parquet" ∈ table_paths example_etl)
    as Hin by (do 3 apply list_elem_of_further; apply list_elem_of_here).
  destruct (run_well_formed utc example_etl ∅ fs' Hrun _ Hin) as (t & Ht & Hwf).
  exists fs', t. split; [exact Hrun|]. split; [exact Hin|].
  split; [exact Ht|exact Hwf].
Defined.

(** A session that finds no file: the first step fails with the exception
    of the read. *)
Example process_song_data_path_not_found :
  process_song_data
    {| spark := empty_session; src := "s3a://udacity-dend/";
       dst := "s3a://spark-data-lake-etl" |} ∅
  = Err (path_not_found "s3a://udacity-dend/song_data/*/*/*/*.json").
Proof. reflexivity. Qed.

(** ** Setup *)

Lemma lower_access_key : lower "AWS_ACCESS_KEY_ID" = "aws_access_key_id".
Proof. reflexivity. Qed.

Lemma lower_secret_key :
  lower "AWS_SECRET_ACCESS_KEY" = "aws_secret_access_key".
Proof. reflexivity. Qed.

Lemma lower_idemp (s : string) : lower (lower s) = lower s.
Proof.
  induction s as [|c s IH]; [done|]. cbn. rewrite IH. f_equal.
  destruct c as [[] [] [] [] [] [] [] []]; reflexivity.
Qed.

Ltac io_unfold :=
  unfold set_env_vars, create_bucket_if_not_exists, create_spark_session,
    list_buckets, create_bucket, setenv, get_config, io_lift, io_ret,
    mbind, io_mbind, io_bind in *.

Section setup.

Context (services : Services).

(** Option names are matched in lower case: two spellings of a name read
    the same value. *)
Lemma getitem_spelling (config : ConfigParser) (section o1 o2 v : string) :
  lower o1 = lower o2 →
  getitem services config section o1 = Done v →
  getitem services config section o2 = Done v.
Proof.
  intros Hl. unfold getitem. rewrite Hl.
  destruct (bool_decide (section = "DEFAULT")).
  - rewrite !lookup_empty.
    destruct (cfg_defaults config !! lower o2); [done|discriminate].
  - destruct (cfg_sections config !! section) as [options|]; [|done].
    destruct (options !! lower o2); [done|].
    destruct (cfg_defaults config !! lower o2); [done|discriminate].
Qed.

Lemma getitem_no_section (config : ConfigParser) (section option : string) :
  section ≠ "DEFAULT" →
  cfg_sections config !! section = None →
  getitem services config section option = Raised (KeyError section).
Proof.
  intros Hd Hs. unfold getitem.
  rewrite bool_decide_eq_false_2 by done. by rewrite Hs.
Qed.


(** X13: [config.read] skips a missing file, so without [dl.cfg], or with
    one that has no AWS section, both functions raise KeyError('AWS') and
    change nothing. *)
Theorem setup_without_aws_section (w : World) (bucket_name : string) :
  files w !! "dl.cfg" = None ∨
  (∃ config, files w !! "dl.cfg" = Some (Done config) ∧
             cfg_sections config !! "AWS" = None) →
  set_env_vars services w = (w, Raised (KeyError "AWS")) ∧
  create_bucket_if_not_exists services bucket_name w
  = (w, Raised (KeyError "AWS")).
Proof.
  intros [Hf|(config & Hf & Hs)]; io_unfold; rewrite Hf;
    rewrite !getitem_no_section by done; done.
Qed.

(** X14: whatever its outcome, [set_env_vars] touches neither the files nor
    the buckets, and no environment variable other than the two it
    exports. *)
Theorem set_env_vars_frame (w : World) :
  files (set_env_vars services w).1 = files w ∧
  buckets (set_env_vars services w).1 = buckets w ∧
  ∀ name,
    name ≠ "AWS_ACCESS_KEY_ID" → name ≠ "AWS_SECRET_ACCESS_KEY" →
    environ (set_env_vars services w).1 !! name = environ w !! name.
Proof.
  io_unfold.
  destruct (files w !! "dl.cfg") as [[config|e]|]; [|done|].
  all: destruct (getitem _ _ "AWS" "AWS_ACCESS_KEY_ID") as [access|];
    [|done]; destruct (has_nul access); [done|]; cbn.
  all: destruct (getitem _ _ "AWS" "AWS_SECRET_ACCESS_KEY") as [secret|];
    [destruct (has_nul secret)|]; cbn.
  all: split; [done|]; split; [done|]; intros name H1 H2.
  all: by rewrite ?lookup_insert_ne.
Qed.

(** X15: [set_env_vars] is not atomic: when the second option cannot be
    read, the first one has been exported already. *)
Theorem set_env_vars_not_atomic (w : World) (config : ConfigParser)
    (access : string) (e : Exception) :
  files w !! "dl.cfg" = Some (Done config) →
  getitem services config "AWS" "AWS_ACCESS_KEY_ID" = Done access →
  has_nul access = false →
  getitem services config "AWS" "AWS_SECRET_ACCESS_KEY" = Raised e →
  set_env_vars services w
  = ({| files := files w;
        environ := <["AWS_ACCESS_KEY_ID" := access]> (environ w);
        buckets := buckets w |}, Raised e).
Proof.
  intros Hf Ha Hn Hs. io_unfold. rewrite Hf, Ha, Hn. cbn. by rewrite Hs.
Qed.

(** X16: after [set_env_vars] succeeded, [create_bucket_if_not_exists]
    reads the key pair that was exported, whatever the spelling of the
    option names, and its outcome is the service's: the listing refused,
    the bucket found, the bucket created last in the listing, or its
    creation refused. *)
Theorem create_bucket_after_set_env_vars (w w' : World)
    (bucket_name : string) :
  set_env_vars services w = (w', Done ()) →
  ∃ access secret,
    environ w' !! "AWS_ACCESS_KEY_ID" = Some access ∧
    environ w' !! "AWS_SECRET_ACCESS_KEY" = Some secret ∧
    create_bucket_if_not_exists services bucket_name w'
    = if valid_credentials services access secret then
        if bool_decide (bucket_name ∈ buckets w) then (w', Done ())
        else if creatable services bucket_name then
          ({| files := files w'; environ := environ w';
              buckets := buckets w ++ [bucket_name] |}, Done ())
        else (w', Raised (ClientError "CreateBucket"))
      else (w', Raised (ClientError "ListBuckets")).
Proof.
  io_unfold.
  destruct (files w !! "dl.cfg") as [[config|e]|] eqn:Hf; [|done|].
  all: destruct (getitem _ _ "AWS" "AWS_ACCESS_KEY_ID") as [access|] eqn:Ha;
    [|done]; destruct (has_nul access); [done|]; cbn.
  all: destruct (getitem _ _ "AWS" "AWS_SECRET_ACCESS_KEY")
    as [secret|] eqn:Hs; [|done]; destruct (has_nul secret); [done|]; cbn.
  all: intros [= <-]; exists access, secret; cbn.
  all: rewrite lookup_insert_ne by done; rewrite !lookup_insert_eq.
  all: split; [done|]; split; [done|]; rewrite Hf.
  all: rewrite (getitem_spelling _ "AWS" "AWS_ACCESS_KEY_ID"
                  "aws_access_key_id" access eq_refl Ha).
  all: rewrite (getitem_spelling _ "AWS" "AWS_SECRET_ACCESS_KEY"
                  "aws_secret_access_key" secret eq_refl Hs).
  all: destruct (valid_credentials services access secret); cbn; [|done].
  all: destruct (bool_decide (bucket_name ∈ buckets w)); [done|].
  all: by destruct (creatable services bucket_name).
Qed.

(** X17: [create_bucket_if_not_exists] touches neither the files nor the
    environment; when it raises, the buckets are as before; when it
    returns, the bucket is listed, the listing is the old one, with the
    bucket added last if it was not there, and no name is listed twice if
    none was. *)
Theorem create_bucket_if_not_exists_post (w : World) (bucket_name : string) :
  let w' := (create_bucket_if_not_exists services bucket_name w).1 in
  let r := (create_bucket_if_not_exists services bucket_name w).2 in
  files w' = files w ∧ environ w' = environ w ∧
  (∀ e, r = Raised e → buckets w' = buckets w) ∧
  (r = Done () →
     bucket_name ∈ buckets w' ∧
     (bucket_name ∈ buckets w → buckets w' = buckets w) ∧
     (bucket_name ∉ buckets w → buckets w' = buckets w ++ [bucket_name]) ∧
     (NoDup (buckets w) → NoDup (buckets w'))).
Proof.
  io_unfold.
  destruct (files w !! "dl.cfg") as [[config|e]|]; [|done|].
  all: destruct (getitem _ _ "AWS" "aws_access_key_id") as [access|];
    [|done]; cbn.
  all: destruct (getitem _ _ "AWS" "aws_secret_access_key") as [secret|];
    [|done]; cbn.
  all: destruct (valid_credentials services access secret); cbn; [|done].
  all: case_bool_decide as Hin; cbn.
  all: try (repeat split; done).
  all: destruct (creatable services bucket_name); cbn; [|done].
  all: repeat split; try done.
  all: try (rewrite elem_of_app, list_elem_of_singleton; by right).
  all: intros Hnd; apply NoDup_app; repeat split;
    [done| |apply NoDup_singleton].
  all: by intros x Hx ->%list_elem_of_singleton.
Qed.

(** X18: a second call of [create_bucket_if_not_exists] after a successful
    one returns without creating anything. *)
Theorem create_bucket_if_not_exists_idempotent (w w' : World)
    (bucket_name : string) :
  create_bucket_if_not_exists services bucket_name w = (w', Done ()) →
  create_bucket_if_not_exists services bucket_name w' = (w', Done ()).
Proof.
  io_unfold.
  destruct (files w !! "dl.cfg") as [[config|e]|] eqn:Hf; [|done|].
  all: destruct (getitem _ _ "AWS" "aws_access_key_id") as [access|] eqn:Ha;
    [|done]; cbn.
  all: destruct (getitem _ _ "AWS" "aws_secret_access_key")
    as [secret|] eqn:Hs; [|done]; cbn.
  all: destruct (valid_credentials services access secret) eqn:Hv; cbn;
    [|done].
  all: case_bool_decide as Hin; cbn.
  all: try (intros [= <-]; rewrite Hf, Ha, Hs; cbn; rewrite Hv;
            by rewrite bool_decide_eq_true_2).
  all: destruct (creatable services bucket_name); cbn; [|done].
  all: intros [= <-]; cbn; rewrite Hf, Ha, Hs; cbn; rewrite Hv.
  all: rewrite bool_decide_eq_true_2; [done|].
  all: rewrite elem_of_app, list_elem_of_singleton; by right.
Qed.

End setup.

Section main.

Context (services : Services) (tz : TimeZone).

Lemma set_env_vars_Done (w w' : World) :
  set_env_vars services w = (w', Done ()) →
  files w' = files w ∧ buckets w' = buckets w ∧
  is_Some (environ w' !! "AWS_ACCESS_KEY_ID") ∧
  is_Some (environ w' !! "AWS_SECRET_ACCESS_KEY").
Proof.
  io_unfold.
  destruct (files w !! "dl.cfg") as [[config|e]|]; [|done|].
  all: destruct (getitem _ _ "AWS" "AWS_ACCESS_KEY_ID") as [access|];
    [|done]; destruct (has_nul access); [done|]; cbn.
  all: destruct (getitem _ _ "AWS" "AWS_SECRET_ACCESS_KEY") as [secret|];
    [|done]; destruct (has_nul secret); [done|]; cbn.
  all: intros [= <-]; cbn; repeat split; try done.
  all: rewrite ?lookup_insert_eq, ?(lookup_insert_ne _ _ _ _) by done.
  all: rewrite ?lookup_insert_eq; by eexists.
Qed.

Lemma create_bucket_if_not_exists_Done (w w' : World) (bucket_name : string) :
  create_bucket_if_not_exists services bucket_name w = (w', Done ()) →
  files w' = files w ∧ environ w' = environ w ∧ bucket_name ∈ buckets w'.
Proof.
  io_unfold.
  destruct (files w !! "dl.cfg") as [[config|e]|]; [|done|].
  all: destruct (getitem _ _ "AWS" "aws_access_key_id") as [access|];
    [|done]; cbn.
  all: destruct (getitem _ _ "AWS" "aws_secret_access_key") as [secret|];
    [|done]; cbn.
  all: destruct (valid_credentials services access secret); cbn; [|done].
  all: case_bool_decide as Hin; cbn.
  all: try (by intros [= <-]).
  all: destruct (creatable services bucket_name); cbn; [|done].
  all: intros [= <-]; cbn; repeat split; try done.
  all: rewrite elem_of_app, list_elem_of_singleton; by right.
Qed.

Lemma create_bucket_if_not_exists_creates (w : World)
    (config : ConfigParser) (access secret bucket_name : string) :
  files w !! "dl.cfg" = Some (Done config) →
  getitem services config "AWS" "aws_access_key_id" = Done access →
  getitem services config "AWS" "aws_secret_access_key" = Done secret →
  valid_credentials services access secret = true →
  creatable services bucket_name = true →
  bucket_name ∉ buckets w →
  create_bucket_if_not_exists services bucket_name w
  = ({| files := files w; environ := environ w;
        buckets := buckets w ++ [bucket_name] |}, Done ()).
Proof.
  intros Hf Ha Hs Hv Hc Hb. io_unfold. rewrite Hf, Ha, Hs. cbn.
  rewrite Hv. rewrite bool_decide_eq_false_2 by done. cbn. by rewrite Hc.
Qed.

(** [main] returns exactly when its three stages do. *)
Lemma main_Done (fs fs' : gmap string Parquet) (w w' : World) :
  main services tz fs w = (w', Done fs') ↔
  ∃ w1,
    set_env_vars services w = (w1, Done ()) ∧
    create_bucket_if_not_exists services "spark-data-lake-etl" w1
    = (w', Done ()) ∧
    run tz {| spark := getOrCreate services; src := "s3a://udacity-dend/";
              dst := "s3a://spark-data-lake-etl" |} fs = OK fs'.
Proof.
  unfold main, create_spark_session, mbind, io_mbind, io_bind, io_ret,
    io_lift.
  destruct (set_env_vars services w) as [w1 [[]|e1]].
  2: { split; [done|]. by intros (? & [=] & _). }
  destruct (create_bucket_if_not_exists services _ w1) as [w2 [[]|e2]] eqn:H2.
  2: { split; [done|]. intros (? & [= <-] & H & _).
       rewrite H2 in H. done. }
  cbv zeta.
  change ("s3a://" +:+ "spark-data-lake-etl") with "s3a://spark-data-lake-etl".
  destruct (run tz _ fs) as [fs1|e3].
  - split.
    + intros [= <- <-]. by exists w1.
    + intros (? & [= <-] & H & [= <-]). rewrite H2 in H. by inversion H.
  - split; [done|]. by intros (? & _ & _ & [=]).
Qed.

(** X19: when [main] returns, the configuration files are as before, both
    variables are exported, the bucket is listed, and the five tables are
    at the destination followed directly by their names, without a
    separator; nothing under the bucket's own prefix is written. *)
Theorem main_outcome (fs fs' : gmap string Parquet) (w w' : World) :
  main services tz fs w = (w', Done fs') →
  files w' = files w ∧
  is_Some (environ w' !! "AWS_ACCESS_KEY_ID") ∧
  is_Some (environ w' !! "AWS_SECRET_ACCESS_KEY") ∧
  "spark-data-lake-etl" ∈ buckets w' ∧
  pq_columns <$> fs' !! "s3a://spark-data-lake-etlsongs_table.parquet"
  = Some songs_columns ∧
  pq_columns <$> fs' !! "s3a://spark-data-lake-etlartists_table.parquet"
  = Some artists_columns ∧
  pq_columns <$> fs' !! "s3a://spark-data-lake-etlusers_table.parquet"
  = Some users_columns ∧
  pq_columns <$> fs' !! "s3a://spark-data-lake-etltime_table.parquet"
  = Some time_columns ∧
  pq_columns <$> fs' !! "s3a://spark-data-lake-etlsongplays.parquet"
  = Some songplays_columns ∧
  ∀ path,
    fs' !! ("s3a://spark-data-lake-etl/" +:+ path)
    = fs !! ("s3a://spark-data-lake-etl/" +:+ path).
Proof.
  intros (w1 & H1 & H2 & Hrun)%main_Done.
  apply set_env_vars_Done in H1 as (Hf1 & _ & Ha & Hs).
  apply create_bucket_if_not_exists_Done in H2 as (Hf2 & He2 & Hb).
  split; [congruence|]. rewrite He2. do 3 (split; [done|]).
  destruct (run_OK_reads _ _ _ _ Hrun) as (songs & logs & Hsongs & Hlogs).
  destruct (run_explicit tz {| spark := getOrCreate services;
                               src := "s3a://udacity-dend/";
                               dst := "s3a://spark-data-lake-etl" |}
              songs logs fs Hsongs Hlogs)
    as (sorted & _ & _ & Heq).
  rewrite Heq in Hrun. clear Heq.
  destruct (traverse (time_projection tz) _) as [time|e]; [|done].
  cbn in Hrun. injection Hrun as <-.
  repeat split.
  6: { intros path. by rewrite !lookup_insert_ne. }
  all: rewrite ?(lookup_insert_ne _ _ _ _) by done.
  all: by rewrite lookup_insert_eq.
Qed.

End main.

(** ** Setup on the example world *)

Lemma setup_without_aws_section_witness :
  let w := {| files := ∅; environ := ∅; buckets := [] |} in
  set_env_vars example_services w = (w, Raised (KeyError "AWS")) ∧
  create_bucket_if_not_exists example_services "spark-data-lake-etl" w
  = (w, Raised (KeyError "AWS")).
Proof.
  apply (setup_without_aws_section example_services
           {| files := ∅; environ := ∅; buckets := [] |}
           "spark-data-lake-etl").
  left. reflexivity.
Defined.

Lemma set_env_vars_not_atomic_witness :
  set_env_vars example_services example_world_without_secret
  = ({| files := files example_world_without_secret;
        environ := <["AWS_ACCESS_KEY_ID" := "AKIA"]>
                     (environ example_world_without_secret);
        buckets := buckets example_world_without_secret |},
     Raised (KeyError "AWS_SECRET_ACCESS_KEY")).
Proof.
  apply (set_env_vars_not_atomic example_services
           example_world_without_secret example_config_without_secret
           "AKIA" (KeyError "AWS_SECRET_ACCESS_KEY")); reflexivity.
Defined.

Lemma example_set_env_vars :
  set_env_vars example_services example_world
  = (example_world_exported, Done ()).
Proof. reflexivity. Defined.

Lemma example_create_bucket (w : World) :
  files w = files example_world → "spark-data-lake-etl" ∉ buckets w →
  create_bucket_if_not_exists example_services "spark-data-lake-etl" w
  = (example_world_with_bucket w, Done ()).
Proof.
  intros Hf Hb.
  apply (create_bucket_if_not_exists_creates example_services w
           example_config "AKIA" "wJal"); try reflexivity; [|done].
  by rewrite Hf.
Defined.

Lemma create_bucket_after_set_env_vars_witness :
  ∃ access secret,
    environ example_world_exported !! "AWS_ACCESS_KEY_ID" = Some access ∧
    environ example_world_exported !! "AWS_SECRET_ACCESS_KEY" = Some secret ∧
    create_bucket_if_not_exists example_services "spark-data-lake-etl"
      example_world_exported
    = if valid_credentials example_services access secret then
        if bool_decide ("spark-data-lake-etl" ∈ buckets example_world)
        then (example_world_exported, Done ())
        else if creatable example_services "spark-data-lake-etl" then
          ({| files := files example_world_exported;
              environ := environ example_world_exported;
              buckets := buckets example_world ++ ["spark-data-lake-etl"] |},
           Done ())
        else (example_world_exported, Raised (ClientError "CreateBucket"))
      else (example_world_exported, Raised (ClientError "ListBuckets")).
Proof.
  exact (create_bucket_after_set_env_vars example_services example_world
           example_world_exported "spark-data-lake-etl"
           example_set_env_vars).
Defined.

Lemma create_bucket_if_not_exists_idempotent_witness :
  create_bucket_if_not_exists example_services "spark-data-lake-etl"
    (example_world_with_bucket example_world)
  = (example_world_with_bucket example_world, Done ()).
Proof.
  apply (create_bucket_if_not_exists_idempotent example_services
           example_world).
  apply example_create_bucket; [reflexivity|].
  by intros [=]%list_elem_of_singleton.
Defined.

Lemma main_outcome_witness :
  ∃ fs',
    main example_services utc ∅ example_world
    = (example_world_with_bucket example_world_exported, Done fs') ∧
    "spark-data-lake-etl"
    ∈ buckets (example_world_with_bucket example_world_exported) ∧
    pq_columns <$> fs' !! "s3a://spark-data-lake-etlsongplays.parquet"
    = Some songplays_columns ∧
    fs' !! "s3a://spark-data-lake-etl/songplays.parquet" = None.
Proof.
  destruct example_run_succeeds as [fs' Hrun]. exists fs'.
  assert (main example_services utc ∅ example_world
          = (example_world_with_bucket example_world_exported, Done fs'))
    as Hmain.
  { apply main_Done. exists example_world_exported.
    split; [exact example_set_env_vars|]. split; [|exact Hrun].
    apply example_create_bucket; [reflexivity|].
    by intros [=]%list_elem_of_singleton. }
  split; [exact Hmain|].
  destruct (main_outcome example_services utc ∅ fs' example_world _ Hmain)
    as (_ & _ & _ & Hb & _ & _ & _ & _ & Hplays & Hunder).
  split; [exact Hb|]. split; [exact Hplays|].
  exact (Hunder "songplays.parquet").
Defined.

Lemma create_bucket_if_not_exists_post_witness :
  let w' := (create_bucket_if_not_exists example_services
               "spark-data-lake-etl" example_world).1 in
  let r := (create_bucket_if_not_exists example_services
              "spark-data-lake-etl" example_world).2 in
  files w' = files example_world ∧ environ w' = environ example_world ∧
  (∀ e, r = Raised e → buckets w' = buckets example_world) ∧
  (r = Done () →
     "spark-data-lake-etl" ∈ buckets w' ∧
     ("spark-data-lake-etl" ∈ buckets example_world →
      buckets w' = buckets example_world) ∧
     ("spark-data-lake-etl" ∉ buckets example_world →
      buckets w' = buckets example_world ++ ["spark-data-lake-etl"]) ∧
     (NoDup (buckets example_world) → NoDup (buckets w'))).
Proof.
  exact (create_bucket_if_not_exists_post example_services example_world
           "spark-data-lake-etl").
Defined.
